(** * FHEStaking: a shallow embedding of [contracts/FHEStaking.sol]

    The contract keeps, per account, three encrypted 64-bit counters
    (liquid, staked, pending interest) and two plaintext fields (the last
    accrual checkpoint and the one-time claim flag).  The embedding below
    follows the Solidity text statement by statement inside a small
    state-and-revert monad; the encrypted-arithmetic library the contract
    imports ([@fhevm/solidity]) is an outside capability and is modelled by a
    ghost coprocessor that remembers, for each handle, the plaintext it
    encrypts and the principals allowed to decrypt it. *)

From Stdlib Require Import ZArith Lia Ascii DecimalString.
From stdpp Require Import gmap list strings.

Local Open Scope Z_scope.

(** ** Machine integers *)

Definition two64 : Z := 18446744073709551616.
Definition uint256_max : Z :=
  115792089237316195423570985008687907853269984665640564039457584007913129639935.
Definition one_day : Z := 86400.

Lemma two64_eq : two64 = 2 ^ 64.
Proof. reflexivity. Qed.

Lemma uint256_max_eq : uint256_max = 2 ^ 256 - 1.
Proof. reflexivity. Qed.

(** [uint64(x)] on a [uint256]: the explicit narrowing conversion truncates. *)
Definition to_uint64 (x : Z) : Z := x mod two64.

(** ** Principals, handles, events and errors *)

Abbreviation address := N (only parsing).

(** An [euint64] is a 32-byte handle; the all-zero handle is the
    uninitialised one that an untouched mapping slot holds. *)
Abbreviation euint64 := N (only parsing).

Inductive event : Type :=
| TokensClaimed (user : address) (amount : Z)
| TokensStaked (user : address)
| TokensUnstaked (user : address)
| InterestClaimed (user : address) (daysAccrued : Z).

Inductive error : Type :=
| ALREADY_CLAIMED
| CLAIM_REQUIRED
| InvalidProof
| Panic.

Inductive outcome (A : Type) : Type :=
| Ok (a : A)
| Revert (e : error).
Arguments Ok {A} a.
Arguments Revert {A} e.

(** ** State *)

(** The five storage mappings of the contract. *)
Record storage : Type := Storage {
  liquidBalances : gmap address euint64;
  stakedBalances : gmap address euint64;
  pendingInterest : gmap address euint64;
  lastAccrualTimestamp : gmap address Z;
  hasClaimed : gmap address bool
}.

(** Modelled from the spec: the ciphertext-handle capability and the
    access-grant manager of sections 4.1, 4.2 and 6, which live in the
    imported library and not in this repository.  [ciphertexts] is the ghost
    plaintext behind each handle, [acl] the persistent decrypt-grants of each
    handle, [next_handle] the next unused handle: every operation of the
    capability produces a fresh handle.  The spec leaves open how the
    library names a handle; it may give equal results of equal operations
    one name, and two accounts might then hold the same handle.  Numbering
    the handles in the order they are produced is one choice, and the
    properties stated of the contract are those that hold whatever the
    names are: what a handle decrypts to, who is granted on it at least,
    and who may be granted at all, never that two handles differ or how
    many principals one has. *)
Record coprocessor : Type := Coprocessor {
  ciphertexts : gmap euint64 Z;
  acl : gmap euint64 (gset address);
  next_handle : euint64
}.

Record world : Type := World {
  store : storage;
  fhe : coprocessor;
  logs : list event
}.

(** The call context: [address(this)], [msg.sender], [block.timestamp]. *)
Record env : Type := Env {
  this : address;
  msg_sender : address;
  block_timestamp : Z
}.

Definition genesis : world :=
  World (Storage ∅ ∅ ∅ ∅ ∅) (Coprocessor ∅ ∅ 1%N) [].

(** ** The monad: state threaded through, a revert keeps the state reached *)

Definition M (A : Type) : Type := env -> world -> outcome A * world.

Definition ret {A} (a : A) : M A := fun _ w => (Ok a, w).

Definition bind {A B} (c : M A) (k : A -> M B) : M B :=
  fun e w =>
    match c e w with
    | (Ok a, w') => k a e w'
    | (Revert err, w') => (Revert err, w')
    end.

Notation "x <- c ;; k" := (bind c (fun x => k))
  (at level 100, c at next level, right associativity).
Notation "c ;;; k" := (bind c (fun _ => k))
  (at level 100, right associativity).

Definition revert {A} (err : error) : M A := fun _ w => (Revert err, w).

Definition require (b : bool) (err : error) : M unit :=
  if b then ret tt else revert err.

Definition ask : M env := fun e w => (Ok e, w).
Definition gets {A} (f : world -> A) : M A := fun _ w => (Ok (f w), w).
Definition modify (f : world -> world) : M unit := fun _ w => (Ok tt, f w).

(** ** Checked [uint256] arithmetic (Solidity 0.8: overflow panics) *)

Definition checked_sub (a b : Z) : M Z :=
  if a <? b then revert Panic else ret (a - b).

Definition checked_mul (a b : Z) : M Z :=
  if uint256_max <? a * b then revert Panic else ret (a * b).

Definition checked_add (a b : Z) : M Z :=
  if uint256_max <? a + b then revert Panic else ret (a + b).

(** ** Storage reads and writes; an absent key reads as the zero value *)

Definition with_store (f : storage -> storage) (w : world) : world :=
  World (f (store w)) (fhe w) (logs w).

Definition with_fhe (f : coprocessor -> coprocessor) (w : world) : world :=
  World (store w) (f (fhe w)) (logs w).

Definition liquid_of (w : world) (user : address) : euint64 :=
  default 0%N (liquidBalances (store w) !! user).
Definition staked_of (w : world) (user : address) : euint64 :=
  default 0%N (stakedBalances (store w) !! user).
Definition pending_of (w : world) (user : address) : euint64 :=
  default 0%N (pendingInterest (store w) !! user).
Definition last_of (w : world) (user : address) : Z :=
  default 0 (lastAccrualTimestamp (store w) !! user).
Definition claimed (w : world) (user : address) : bool :=
  default false (hasClaimed (store w) !! user).

(** The pure state transformers behind the writes. *)
Definition put_liquid (user : address) (h : euint64) : world -> world :=
  with_store (fun s =>
    Storage (<[user := h]> (liquidBalances s)) (stakedBalances s)
            (pendingInterest s) (lastAccrualTimestamp s) (hasClaimed s)).
Definition put_staked (user : address) (h : euint64) : world -> world :=
  with_store (fun s =>
    Storage (liquidBalances s) (<[user := h]> (stakedBalances s))
            (pendingInterest s) (lastAccrualTimestamp s) (hasClaimed s)).
Definition put_pending (user : address) (h : euint64) : world -> world :=
  with_store (fun s =>
    Storage (liquidBalances s) (stakedBalances s)
            (<[user := h]> (pendingInterest s)) (lastAccrualTimestamp s)
            (hasClaimed s)).
Definition put_last (user : address) (t : Z) : world -> world :=
  with_store (fun s =>
    Storage (liquidBalances s) (stakedBalances s) (pendingInterest s)
            (<[user := t]> (lastAccrualTimestamp s)) (hasClaimed s)).
Definition put_claimed (user : address) (b : bool) : world -> world :=
  with_store (fun s =>
    Storage (liquidBalances s) (stakedBalances s) (pendingInterest s)
            (lastAccrualTimestamp s) (<[user := b]> (hasClaimed s))).
Definition log_event (ev : event) (w : world) : world :=
  World (store w) (fhe w) (logs w ++ [ev]).

Definition set_liquid (user : address) (h : euint64) : M unit :=
  modify (put_liquid user h).
Definition set_staked (user : address) (h : euint64) : M unit :=
  modify (put_staked user h).
Definition set_pending (user : address) (h : euint64) : M unit :=
  modify (put_pending user h).
Definition set_last (user : address) (t : Z) : M unit :=
  modify (put_last user t).
Definition set_claimed (user : address) (b : bool) : M unit :=
  modify (put_claimed user b).
Definition emit (ev : event) : M unit := modify (log_event ev).

(** ** The encrypted-arithmetic capability *)

Module FHE.

(** Modelled from the spec: the plaintext behind a handle.  The library
    reads an uninitialised handle as an encryption of zero. *)
Definition value_of (c : coprocessor) (h : euint64) : Z :=
  default 0 (ciphertexts c !! h).

(** Modelled from the spec: the principals granted on a handle. *)
Definition grants_of (c : coprocessor) (h : euint64) : gset address :=
  default ∅ (acl c !! h).

(** Modelled from the spec: the coprocessor stores plaintext [v] under its
    next unused handle. *)
Definition alloc (v : Z) : world -> world :=
  with_fhe (fun c =>
    Coprocessor (<[next_handle c := v]> (ciphertexts c)) (acl c)
                (N.succ (next_handle c))).

(** Modelled from the spec: a freshly produced handle for plaintext [v],
    here the next number. *)
Definition fresh (v : Z) : M euint64 :=
  fun _ w => (Ok (next_handle (fhe w)), alloc v w).

(** Modelled from the spec: [encryptConstant] on a [uint64]. *)
Definition asEuint64 (v : Z) : M euint64 := fresh (to_uint64 v).

(** Modelled from the spec: [add] over handles with fixed-width 64-bit
    unsigned semantics; the library's operators are unchecked and wrap
    around. *)
Definition add (a b : euint64) : M euint64 :=
  va <- gets (fun w => value_of (fhe w) a) ;;
  vb <- gets (fun w => value_of (fhe w) b) ;;
  fresh ((va + vb) mod two64).

(** Modelled from the spec: [sub]; an underflow wraps around modulo
    [2^64]. *)
Definition sub (a b : euint64) : M euint64 :=
  va <- gets (fun w => value_of (fhe w) a) ;;
  vb <- gets (fun w => value_of (fhe w) b) ;;
  fresh ((va - vb) mod two64).

(** Modelled from the spec: [mul]; the product is kept modulo [2^64]. *)
Definition mul (a b : euint64) : M euint64 :=
  va <- gets (fun w => value_of (fhe w) a) ;;
  vb <- gets (fun w => value_of (fhe w) b) ;;
  fresh ((va * vb) mod two64).

(** Modelled from the spec: [divConstant], truncating integer division by
    a plaintext constant. *)
Definition div (a : euint64) (k : Z) : M euint64 :=
  va <- gets (fun w => value_of (fhe w) a) ;;
  fresh (va / k).

(** Modelled from the spec: an externally supplied ciphertext and the
    proof binding it to a contract and a submitter.  [ext_plain] is the
    ghost plaintext of the submitted ciphertext. *)
Record externalEuint64 : Type := External { ext_plain : Z }.

(** Modelled from the spec: what an input proof attests: the contract and
    the submitter it is bound to, and the plaintext it was made for. *)
Record inputProof : Type := Proof {
  bound_contract : address;
  bound_user : address;
  attested : Z
}.

(** Modelled from the spec: the proof matches this contract, this caller
    and this ciphertext, and the ciphertext is a well-formed 64-bit value. *)
Definition proof_ok (e : env) (x : externalEuint64) (p : inputProof) : bool :=
  (bound_contract p =? this e)%N && (bound_user p =? msg_sender e)%N
  && (attested p =? ext_plain x) && (0 <=? ext_plain x)
  && (ext_plain x <? two64).

(** Modelled from the spec: [fromExternalInput], failing with
    [InvalidProof] on a proof that does not match. *)
Definition fromExternal (x : externalEuint64) (p : inputProof) : M euint64 :=
  e <- ask ;;
  require (proof_ok e x p) InvalidProof ;;;
  fresh (ext_plain x).

(** Modelled from the spec: granting extends the decrypt-authorisation
    set of the handle. *)
Definition grant_in (h : euint64) (who : address) : world -> world :=
  with_fhe (fun c =>
    Coprocessor (ciphertexts c)
                (<[h := {[who]} ∪ grants_of c h]> (acl c))
                (next_handle c)).

(** Modelled from the spec: the [grant] operation of the access-grant
    manager, for one principal. *)
Definition grant (h : euint64) (who : address) : M unit :=
  modify (grant_in h who).

(** Modelled from the spec: grant the ledger's own identity. *)
Definition allowThis (h : euint64) : M unit :=
  e <- ask ;; grant h (this e).

(** Modelled from the spec: grant a named principal. *)
Definition allow (h : euint64) (who : address) : M unit := grant h who.

(** Modelled from the spec: the decryption boundary; an ungranted
    principal receives nothing. *)
Definition userDecrypt (c : coprocessor) (who : address) (h : euint64)
  : option Z :=
  if decide (who ∈ grants_of c h) then Some (value_of c h) else None.

End FHE.

(** ** The contract *)

Definition INITIAL_GRANT : Z := 1000.

Definition _allowValue (value : euint64) (user : address) : M unit :=
  FHE.allowThis value ;;;
  FHE.allow value user.

Definition _settleRewards (user : address) : M Z :=
  e <- ask ;;
  lastTimestamp <- gets (fun w => last_of w user) ;;
  if lastTimestamp =? 0 then
    set_last user (block_timestamp e) ;;;
    ret 0
  else
    elapsed <- checked_sub (block_timestamp e) lastTimestamp ;;
    let elapsedDays := elapsed / one_day in
    if elapsedDays =? 0 then ret 0
    else
      stakeAmount <- gets (fun w => staked_of w user) ;;
      daysCount <- FHE.asEuint64 (to_uint64 elapsedDays) ;;
      accrued <- FHE.mul stakeAmount daysCount ;;
      accrued <- FHE.div accrued 100 ;;
      rewards <- gets (fun w => pending_of w user) ;;
      updatedRewards <- FHE.add rewards accrued ;;
      set_pending user updatedRewards ;;;
      _allowValue updatedRewards user ;;;
      span <- checked_mul elapsedDays one_day ;;
      newLast <- checked_add lastTimestamp span ;;
      set_last user newLast ;;;
      ret elapsedDays.

(** Lines 28-29 of [claimInitial]: the grant handle is produced and written
    into the liquid slot; the caller grants it afterwards. *)
Definition claimInitial_store_grant (user : address) : M euint64 :=
  grantAmount <- FHE.asEuint64 INITIAL_GRANT ;;
  set_liquid user grantAmount ;;;
  ret grantAmount.

Definition claimInitial : M unit :=
  e <- ask ;;
  let user := msg_sender e in
  has <- gets (fun w => claimed w user) ;;
  require (negb has) ALREADY_CLAIMED ;;;
  grantAmount <- claimInitial_store_grant user ;;
  _allowValue grantAmount user ;;;
  zeroValue <- FHE.asEuint64 0 ;;
  set_staked user zeroValue ;;;
  _allowValue zeroValue user ;;;
  set_pending user zeroValue ;;;
  _allowValue zeroValue user ;;;
  set_claimed user true ;;;
  set_last user (block_timestamp e) ;;;
  emit (TokensClaimed user INITIAL_GRANT).

Definition stake (encryptedAmount : FHE.externalEuint64)
    (proof : FHE.inputProof) : M unit :=
  e <- ask ;;
  let user := msg_sender e in
  has <- gets (fun w => claimed w user) ;;
  require has CLAIM_REQUIRED ;;;
  _settleRewards user ;;;
  amount <- FHE.fromExternal encryptedAmount proof ;;
  liquid <- gets (fun w => liquid_of w user) ;;
  updatedBalance <- FHE.sub liquid amount ;;
  set_liquid user updatedBalance ;;;
  _allowValue updatedBalance user ;;;
  staked <- gets (fun w => staked_of w user) ;;
  updatedStake <- FHE.add staked amount ;;
  set_staked user updatedStake ;;;
  _allowValue updatedStake user ;;;
  set_last user (block_timestamp e) ;;;
  emit (TokensStaked user).

Definition unstake (encryptedAmount : FHE.externalEuint64)
    (proof : FHE.inputProof) : M unit :=
  e <- ask ;;
  let user := msg_sender e in
  has <- gets (fun w => claimed w user) ;;
  require has CLAIM_REQUIRED ;;;
  _settleRewards user ;;;
  amount <- FHE.fromExternal encryptedAmount proof ;;
  staked <- gets (fun w => staked_of w user) ;;
  updatedStake <- FHE.sub staked amount ;;
  set_staked user updatedStake ;;;
  _allowValue updatedStake user ;;;
  liquid <- gets (fun w => liquid_of w user) ;;
  updatedBalance <- FHE.add liquid amount ;;
  set_liquid user updatedBalance ;;;
  _allowValue updatedBalance user ;;;
  set_last user (block_timestamp e) ;;;
  emit (TokensUnstaked user).

Definition claimInterest : M unit :=
  e <- ask ;;
  let user := msg_sender e in
  has <- gets (fun w => claimed w user) ;;
  require has CLAIM_REQUIRED ;;;
  daysAccrued <- _settleRewards user ;;
  rewards <- gets (fun w => pending_of w user) ;;
  liquid <- gets (fun w => liquid_of w user) ;;
  updatedBalance <- FHE.add liquid rewards ;;
  set_liquid user updatedBalance ;;;
  _allowValue updatedBalance user ;;;
  zeroValue <- FHE.asEuint64 0 ;;
  set_pending user zeroValue ;;;
  _allowValue zeroValue user ;;;
  set_last user (block_timestamp e) ;;;
  emit (InterestClaimed user daysAccrued).

Definition getAccountState (user : address)
  : M (euint64 * euint64 * euint64 * Z * bool) :=
  gets (fun w => (liquid_of w user, staked_of w user, pending_of w user,
                  last_of w user, claimed w user)).

Definition hasUserClaimed (user : address) : M bool :=
  gets (fun w => claimed w user).

Definition getLastAccrualTimestamp (user : address) : M Z :=
  gets (fun w => last_of w user).

Definition getInitialGrant : M Z := ret INITIAL_GRANT.

(** ** Transactions *)

Inductive call : Type :=
| ClaimInitial
| Stake (encryptedAmount : FHE.externalEuint64) (proof : FHE.inputProof)
| Unstake (encryptedAmount : FHE.externalEuint64) (proof : FHE.inputProof)
| ClaimInterest.

Definition dispatch (c : call) : M unit :=
  match c with
  | ClaimInitial => claimInitial
  | Stake x p => stake x p
  | Unstake x p => unstake x p
  | ClaimInterest => claimInterest
  end.

(** A transaction commits the state it reached, or, on revert, leaves the
    world as it was before the call. *)
Definition execute (e : env) (c : call) (w : world) : world :=
  match dispatch c e w with
  | (Ok _, w') => w'
  | (Revert _, _) => w
  end.

Definition succeeds (e : env) (c : call) (w : world) : bool :=
  match dispatch c e w with
  | (Ok _, _) => true
  | (Revert _, _) => false
  end.

(** Plaintext views of the three encrypted counters. *)
Definition plain_liquid (w : world) (user : address) : Z :=
  FHE.value_of (fhe w) (liquid_of w user).
Definition plain_staked (w : world) (user : address) : Z :=
  FHE.value_of (fhe w) (staked_of w user).
Definition plain_pending (w : world) (user : address) : Z :=
  FHE.value_of (fhe w) (pending_of w user).

(** An honest input: amount [a] encrypted by [user] for contract [ledger]. *)
Definition input_of (a : Z) : FHE.externalEuint64 := FHE.External a.
Definition proof_of (ledger user : address) (a : Z) : FHE.inputProof :=
  FHE.Proof ledger user a.

(** ** The scenario of the repository's test-suite, replayed *)

Definition alice : address := 7%N.
Definition staking : address := 99%N.
Definition at_time (t : Z) : env := Env staking alice t.

Definition w_claimed : world := execute (at_time 1000) ClaimInitial genesis.
Definition w_staked250 : world :=
  execute (at_time 1000) (Stake (input_of 250) (proof_of staking alice 250)) w_claimed.
Definition w_unstaked250 : world :=
  execute (at_time 1000) (Unstake (input_of 250) (proof_of staking alice 250)) w_staked250.
Definition w_staked500 : world :=
  execute (at_time 1000) (Stake (input_of 500) (proof_of staking alice 500)) w_claimed.
Definition w_interest : world :=
  execute (at_time (1000 + 3 * 86400)) ClaimInterest w_staked500.

Example scenario_claim :
  (plain_liquid w_claimed alice, plain_staked w_claimed alice,
   plain_pending w_claimed alice, claimed w_claimed alice) = (1000, 0, 0, true).
Proof. vm_compute. reflexivity. Qed.

Example scenario_stake :
  (plain_liquid w_staked250 alice, plain_staked w_staked250 alice) = (750, 250).
Proof. vm_compute. reflexivity. Qed.

Example scenario_unstake :
  (plain_liquid w_unstaked250 alice, plain_staked w_unstaked250 alice) = (1000, 0).
Proof. vm_compute. reflexivity. Qed.

Example scenario_interest :
  (plain_liquid w_interest alice, plain_staked w_interest alice,
   plain_pending w_interest alice) = (515, 500, 0).
Proof. vm_compute. reflexivity. Qed.

(** ** Symbolic execution: one equation per primitive *)

Section Steps.
Context {A B : Type}.
Implicit Types (e : env) (w : world).

Lemma bind_eval (c : M A) (k : A -> M B) e w a w' :
  c e w = (Ok a, w') -> bind c k e w = k a e w'.
Proof. unfold bind. intros ->. reflexivity. Qed.

Lemma bind_fail (c : M A) (k : A -> M B) e w err w' :
  c e w = (Revert err, w') -> bind c k e w = (Revert err, w').
Proof. unfold bind. intros ->. reflexivity. Qed.

Lemma bind_ret (a : A) (k : A -> M B) e w : bind (ret a) k e w = k a e w.
Proof. reflexivity. Qed.

Lemma bind_gets (f : world -> A) (k : A -> M B) e w :
  bind (gets f) k e w = k (f w) e w.
Proof. reflexivity. Qed.
End Steps.

Section StepsUnit.
Context {B : Type}.
Implicit Types (e : env) (w : world).

Lemma bind_ask (k : env -> M B) e w : bind ask k e w = k e e w.
Proof. reflexivity. Qed.

Lemma bind_modify f (k : unit -> M B) e w :
  bind (modify f) k e w = k tt e (f w).
Proof. reflexivity. Qed.

Lemma bind_require b err (k : unit -> M B) e w :
  bind (require b err) k e w = if b then k tt e w else (Revert err, w).
Proof. destruct b; reflexivity. Qed.

Lemma bind_fresh v (k : euint64 -> M B) e w :
  bind (FHE.fresh v) k e w = k (next_handle (fhe w)) e (FHE.alloc v w).
Proof. reflexivity. Qed.

Lemma bind_asEuint64 v (k : euint64 -> M B) e w :
  bind (FHE.asEuint64 v) k e w
  = k (next_handle (fhe w)) e (FHE.alloc (to_uint64 v) w).
Proof. reflexivity. Qed.

Lemma bind_add a b (k : euint64 -> M B) e w :
  bind (FHE.add a b) k e w
  = k (next_handle (fhe w)) e
      (FHE.alloc ((FHE.value_of (fhe w) a + FHE.value_of (fhe w) b) mod two64) w).
Proof. reflexivity. Qed.

Lemma bind_sub a b (k : euint64 -> M B) e w :
  bind (FHE.sub a b) k e w
  = k (next_handle (fhe w)) e
      (FHE.alloc ((FHE.value_of (fhe w) a - FHE.value_of (fhe w) b) mod two64) w).
Proof. reflexivity. Qed.

Lemma bind_mul a b (k : euint64 -> M B) e w :
  bind (FHE.mul a b) k e w
  = k (next_handle (fhe w)) e
      (FHE.alloc ((FHE.value_of (fhe w) a * FHE.value_of (fhe w) b) mod two64) w).
Proof. reflexivity. Qed.

Lemma bind_div a d (k : euint64 -> M B) e w :
  bind (FHE.div a d) k e w
  = k (next_handle (fhe w)) e (FHE.alloc (FHE.value_of (fhe w) a / d) w).
Proof. reflexivity. Qed.

Lemma bind_fromExternal x p (k : euint64 -> M B) e w :
  bind (FHE.fromExternal x p) k e w
  = if FHE.proof_ok e x p
    then k (next_handle (fhe w)) e (FHE.alloc (FHE.ext_plain x) w)
    else (Revert InvalidProof, w).
Proof.
  unfold FHE.fromExternal, bind, ask, require.
  destruct (FHE.proof_ok e x p); reflexivity.
Qed.

Lemma bind_allowValue h user (k : unit -> M B) e w :
  bind (_allowValue h user) k e w
  = k tt e (FHE.grant_in h user (FHE.grant_in h (this e) w)).
Proof. reflexivity. Qed.

Lemma bind_checked_sub a b (k : Z -> M B) e w :
  bind (checked_sub a b) k e w
  = if a <? b then (Revert Panic, w) else k (a - b) e w.
Proof. unfold checked_sub. destruct (a <? b); reflexivity. Qed.

Lemma bind_checked_mul a b (k : Z -> M B) e w :
  bind (checked_mul a b) k e w
  = if uint256_max <? a * b then (Revert Panic, w) else k (a * b) e w.
Proof. unfold checked_mul. destruct (uint256_max <? a * b); reflexivity. Qed.

Lemma bind_checked_add a b (k : Z -> M B) e w :
  bind (checked_add a b) k e w
  = if uint256_max <? a + b then (Revert Panic, w) else k (a + b) e w.
Proof. unfold checked_add. destruct (uint256_max <? a + b); reflexivity. Qed.
End StepsUnit.

Ltac step :=
  first
    [ rewrite bind_ask | rewrite bind_gets | rewrite bind_ret
    | rewrite bind_require | rewrite bind_allowValue
    | rewrite bind_asEuint64 | rewrite bind_add | rewrite bind_sub
    | rewrite bind_mul | rewrite bind_div | rewrite bind_fromExternal
    | rewrite bind_checked_sub | rewrite bind_checked_mul
    | rewrite bind_checked_add
    | progress unfold set_liquid, set_staked, set_pending, set_last,
        set_claimed, emit
    | rewrite bind_modify ];
  cbv beta zeta.

(** Reading the observable fields through the state transformers. *)
Ltac obs_once :=
  unfold plain_liquid, plain_staked, plain_pending,
    liquid_of, staked_of, pending_of, last_of, claimed,
    FHE.value_of, FHE.grants_of in *;
  cbn [store fhe logs liquidBalances stakedBalances pendingInterest
       lastAccrualTimestamp hasClaimed ciphertexts acl next_handle
       FHE.alloc FHE.grant_in put_liquid put_staked put_pending put_last
       put_claimed log_event with_store with_fhe] in *.

Ltac obs := repeat (progress obs_once).

(** Distinctness of keys: of two accounts by hypothesis, of two handles by
    their order; the time arithmetic of the context plays no part. *)
Ltac distinct_keys :=
  first
    [ assumption
    | congruence
    | repeat match goal with
        | H : context [Z.div _ _] |- _ => clear H
        | H : context [Z.mul _ _] |- _ => clear H
        | H : forall _, _ |- _ => clear H
        end;
      lia ].

Ltac lookups_once :=
  match goal with
  | |- context [ <[?i := ?x]> ?m !! ?i ] =>
      rewrite (lookup_insert_eq m i x)
  | |- context [ <[?i := ?x]> ?m !! ?j ] =>
      rewrite (lookup_insert_ne m i j x) by distinct_keys
  end;
  cbn [from_option id].

Ltac lookups :=
  repeat lookups_once; cbn [from_option id].

(** ** Well-formed worlds *)

(** Every handle held in contract storage was produced earlier. *)
Definition handles_fresh (w : world) : Prop :=
  forall u : address,
    (liquid_of w u < next_handle (fhe w))%N
    /\ (staked_of w u < next_handle (fhe w))%N
    /\ (pending_of w u < next_handle (fhe w))%N.

(** ** The accrual step in closed form *)

Definition elapsed_days (e : env) (w : world) (u : address) : Z :=
  (block_timestamp e - last_of w u) / one_day.

(** The interest the accrual step adds for [d] elapsed days. *)
Definition accrued_interest (w : world) (u : address) (d : Z) : Z :=
  ((plain_staked w u * d) mod two64) / 100.

Definition accrue_world (e : env) (u : address) (w : world) : world :=
  let d := elapsed_days e w u in
  let h := next_handle (fhe w) in
  let h3 := N.succ (N.succ (N.succ h)) in
  let m := (plain_staked w u * to_uint64 (to_uint64 d)) mod two64 in
  put_last u (last_of w u + d * one_day)
    (FHE.grant_in h3 u (FHE.grant_in h3 (this e)
      (put_pending u h3
        (FHE.alloc ((plain_pending w u + m / 100) mod two64)
          (FHE.alloc (m / 100)
            (FHE.alloc m
              (FHE.alloc (to_uint64 (to_uint64 d)) w))))))).

Lemma whole_days_le (x : Z) : 0 <= x -> 0 <= x / one_day * one_day <= x.
Proof.
  intros Hx. unfold one_day.
  pose proof (Z.mul_div_le x 86400 ltac:(lia)).
  pose proof (Z.div_pos x 86400 Hx ltac:(lia)). lia.
Qed.

Ltac branch_lia :=
  match goal with
  | |- context [if ?a <? ?b then _ else _] =>
      destruct (Z.ltb_spec a b); [try lia | try lia]
  | |- context [if ?a =? ?b then _ else _] =>
      destruct (Z.eqb_spec a b); [try lia | try lia]
  end.

Ltac exec := repeat (first [step | branch_lia]; obs; lookups).


(** What [_settleRewards] returns and the world it leaves, by branch. *)
Definition settle_days (e : env) (w : world) (u : address) : Z :=
  if last_of w u =? 0 then 0 else elapsed_days e w u.

Definition settle_world (e : env) (u : address) (w : world) : world :=
  if last_of w u =? 0 then put_last u (block_timestamp e) w
  else if elapsed_days e w u =? 0 then w
  else accrue_world e u w.

Lemma settle_accrue_eq e w u :
  handles_fresh w ->
  0 < last_of w u <= block_timestamp e ->
  block_timestamp e <= uint256_max ->
  elapsed_days e w u <> 0 ->
  _settleRewards u e w = (Ok (elapsed_days e w u), accrue_world e u w).
Proof.
  intros Hf Hle Hmax HD. destruct (Hf u) as (Hl & Hs & Hp).
  pose proof (whole_days_le (block_timestamp e - last_of w u) ltac:(lia))
    as Hspan.
  unfold _settleRewards, accrue_world, elapsed_days in *. obs.
  exec. reflexivity.
Qed.

Lemma settle_noop_eq e w u :
  last_of w u <> 0 ->
  last_of w u <= block_timestamp e ->
  elapsed_days e w u = 0 ->
  _settleRewards u e w = (Ok 0, w).
Proof.
  intros Hne Hle HD. unfold _settleRewards, elapsed_days in *.
  exec. reflexivity.
Qed.

Lemma settle_bootstrap_eq e w u :
  last_of w u = 0 ->
  _settleRewards u e w = (Ok 0, put_last u (block_timestamp e) w).
Proof.
  intros H0. unfold _settleRewards. do 2 step. rewrite H0.
  reflexivity.
Qed.

Lemma settle_eq e w u :
  handles_fresh w ->
  0 <= last_of w u <= block_timestamp e ->
  block_timestamp e <= uint256_max ->
  _settleRewards u e w = (Ok (settle_days e w u), settle_world e u w).
Proof.
  intros Hf Hle Hmax. unfold settle_days, settle_world.
  destruct (Z.eqb_spec (last_of w u) 0) as [H0|Hne].
  - now apply settle_bootstrap_eq.
  - destruct (Z.eqb_spec (elapsed_days e w u) 0) as [HD|HD].
    + rewrite HD. apply settle_noop_eq; [assumption|lia|assumption].
    + apply settle_accrue_eq; [assumption|lia|assumption|assumption].
Qed.

(** ** The four operations in closed form *)

Definition claim_world (e : env) (w : world) : world :=
  let u := msg_sender e in
  let h := next_handle (fhe w) in
  let z := N.succ h in
  log_event (TokensClaimed u INITIAL_GRANT)
    (put_last u (block_timestamp e)
      (put_claimed u true
        (FHE.grant_in z u (FHE.grant_in z (this e)
          (put_pending u z
            (FHE.grant_in z u (FHE.grant_in z (this e)
              (put_staked u z
                (FHE.alloc (to_uint64 0)
                  (FHE.grant_in h u (FHE.grant_in h (this e)
                    (put_liquid u h
                      (FHE.alloc (to_uint64 INITIAL_GRANT) w))))))))))))).

Definition stake_body (a : Z) (e : env) (w : world) : world :=
  let u := msg_sender e in
  let h1 := N.succ (next_handle (fhe w)) in
  let h2 := N.succ h1 in
  log_event (TokensStaked u)
    (put_last u (block_timestamp e)
      (FHE.grant_in h2 u (FHE.grant_in h2 (this e)
        (put_staked u h2
          (FHE.alloc ((plain_staked w u + a) mod two64)
            (FHE.grant_in h1 u (FHE.grant_in h1 (this e)
              (put_liquid u h1
                (FHE.alloc ((plain_liquid w u - a) mod two64)
                  (FHE.alloc a w)))))))))).

Definition unstake_body (a : Z) (e : env) (w : world) : world :=
  let u := msg_sender e in
  let h1 := N.succ (next_handle (fhe w)) in
  let h2 := N.succ h1 in
  log_event (TokensUnstaked u)
    (put_last u (block_timestamp e)
      (FHE.grant_in h2 u (FHE.grant_in h2 (this e)
        (put_liquid u h2
          (FHE.alloc ((plain_liquid w u + a) mod two64)
            (FHE.grant_in h1 u (FHE.grant_in h1 (this e)
              (put_staked u h1
                (FHE.alloc ((plain_staked w u - a) mod two64)
                  (FHE.alloc a w)))))))))).

Definition interest_body (d : Z) (e : env) (w : world) : world :=
  let u := msg_sender e in
  let h := next_handle (fhe w) in
  let z := N.succ h in
  log_event (InterestClaimed u d)
    (put_last u (block_timestamp e)
      (FHE.grant_in z u (FHE.grant_in z (this e)
        (put_pending u z
          (FHE.alloc (to_uint64 0)
            (FHE.grant_in h u (FHE.grant_in h (this e)
              (put_liquid u h
                (FHE.alloc
                   ((plain_liquid w u + plain_pending w u) mod two64)
                   w))))))))).

Lemma claimInitial_eq e w :
  claimed w (msg_sender e) = false ->
  claimInitial e w = (Ok tt, claim_world e w).
Proof.
  intros Hc. unfold claimInitial, claimInitial_store_grant, claim_world.
  do 3 step. rewrite Hc. cbn [negb]. rewrite bind_eval with (a := next_handle (fhe w)) (w' := put_liquid (msg_sender e) (next_handle (fhe w)) (FHE.alloc (to_uint64 INITIAL_GRANT) w)).
  2:{ exec. reflexivity. }
  exec. reflexivity.
Qed.

Ltac by_user v u :=
  destruct (decide (v = u)) as [->|?]; obs; lookups.

Lemma handles_fresh_accrue e u w :
  handles_fresh w -> handles_fresh (accrue_world e u w).
Proof.
  intros Hf v. destruct (Hf v) as (Hl & Hs & Hp). unfold accrue_world.
  by_user v u; lia.
Qed.

Lemma handles_fresh_settle e u w :
  handles_fresh w -> handles_fresh (settle_world e u w).
Proof.
  intros Hf. unfold settle_world.
  destruct (last_of w u =? 0).
  - intros v. destruct (Hf v) as (Hl & Hs & Hp). obs. lia.
  - destruct (elapsed_days e w u =? 0); [assumption|].
    now apply handles_fresh_accrue.
Qed.

Lemma stake_eq x p e w :
  claimed w (msg_sender e) = true ->
  handles_fresh w ->
  0 <= last_of w (msg_sender e) <= block_timestamp e ->
  block_timestamp e <= uint256_max ->
  FHE.proof_ok e x p = true ->
  stake x p e w
  = (Ok tt, stake_body (FHE.ext_plain x) e (settle_world e (msg_sender e) w)).
Proof.
  intros Hc Hf Hle Hmax Hproof. unfold stake. do 3 step. rewrite Hc.
  rewrite (bind_eval _ _ _ _ _ _ (settle_eq e w _ Hf Hle Hmax)).
  pose proof (handles_fresh_settle e (msg_sender e) w Hf) as Hf1.
  generalize dependent (settle_world e (msg_sender e) w). intros w1 Hf1.
  destruct (Hf1 (msg_sender e)) as (Hl & Hs & Hp).
  step. rewrite Hproof. unfold stake_body. obs. exec. reflexivity.
Qed.

Lemma unstake_eq x p e w :
  claimed w (msg_sender e) = true ->
  handles_fresh w ->
  0 <= last_of w (msg_sender e) <= block_timestamp e ->
  block_timestamp e <= uint256_max ->
  FHE.proof_ok e x p = true ->
  unstake x p e w
  = (Ok tt, unstake_body (FHE.ext_plain x) e (settle_world e (msg_sender e) w)).
Proof.
  intros Hc Hf Hle Hmax Hproof. unfold unstake. do 3 step. rewrite Hc.
  rewrite (bind_eval _ _ _ _ _ _ (settle_eq e w _ Hf Hle Hmax)).
  pose proof (handles_fresh_settle e (msg_sender e) w Hf) as Hf1.
  generalize dependent (settle_world e (msg_sender e) w). intros w1 Hf1.
  destruct (Hf1 (msg_sender e)) as (Hl & Hs & Hp).
  step. rewrite Hproof. unfold unstake_body. obs. exec. reflexivity.
Qed.

Lemma claimInterest_eq e w :
  claimed w (msg_sender e) = true ->
  handles_fresh w ->
  0 <= last_of w (msg_sender e) <= block_timestamp e ->
  block_timestamp e <= uint256_max ->
  claimInterest e w
  = (Ok tt, interest_body (settle_days e w (msg_sender e)) e
              (settle_world e (msg_sender e) w)).
Proof.
  intros Hc Hf Hle Hmax. unfold claimInterest. do 3 step. rewrite Hc.
  rewrite (bind_eval _ _ _ _ _ _ (settle_eq e w _ Hf Hle Hmax)).
  pose proof (handles_fresh_settle e (msg_sender e) w Hf) as Hf1.
  generalize (settle_days e w (msg_sender e)). intros d.
  generalize dependent (settle_world e (msg_sender e) w). intros w1 Hf1.
  destruct (Hf1 (msg_sender e)) as (Hl & Hs & Hp).
  unfold interest_body. obs. exec. reflexivity.
Qed.

(** The failing paths: the state at the point of failure. *)
Lemma claimInitial_already e w :
  claimed w (msg_sender e) = true ->
  claimInitial e w = (Revert ALREADY_CLAIMED, w).
Proof. intros Hc. unfold claimInitial. do 3 step. now rewrite Hc. Qed.

Lemma stake_unclaimed x p e w :
  claimed w (msg_sender e) = false ->
  stake x p e w = (Revert CLAIM_REQUIRED, w).
Proof. intros Hc. unfold stake. do 3 step. now rewrite Hc. Qed.

Lemma unstake_unclaimed x p e w :
  claimed w (msg_sender e) = false ->
  unstake x p e w = (Revert CLAIM_REQUIRED, w).
Proof. intros Hc. unfold unstake. do 3 step. now rewrite Hc. Qed.

Lemma claimInterest_unclaimed e w :
  claimed w (msg_sender e) = false ->
  claimInterest e w = (Revert CLAIM_REQUIRED, w).
Proof. intros Hc. unfold claimInterest. do 3 step. now rewrite Hc. Qed.

(** ** Histories of transactions *)

Record tx : Type := Tx {
  tx_sender : address;
  tx_time : Z;
  tx_call : call
}.

Definition tx_env (ledger : address) (t : tx) : env :=
  Env ledger (tx_sender t) (tx_time t).

Fixpoint run (ledger : address) (w : world) (txs : list tx) : world :=
  match txs with
  | [] => w
  | t :: rest => run ledger (execute (tx_env ledger t) (tx_call t) w) rest
  end.

(** Block timestamps are positive [uint256] values and never go back. *)
Fixpoint chain_ok (clock : Z) (txs : list tx) : Prop :=
  match txs with
  | [] => True
  | t :: rest =>
      clock <= tx_time t /\ 0 < tx_time t <= uint256_max
      /\ chain_ok (tx_time t) rest
  end.

Fixpoint clock_after (clock : Z) (txs : list tx) : Z :=
  match txs with
  | [] => clock
  | t :: rest => clock_after (tx_time t) rest
  end.

(** [reachable ledger w t]: the contract deployed at [ledger] is in world
    [w] after some history of public calls, the last block being at [t]. *)
Definition reachable (ledger : address) (w : world) (t : Z) : Prop :=
  exists txs, chain_ok 0 txs /\ run ledger genesis txs = w
              /\ clock_after 0 txs = t.

(** ** The invariant of reachable worlds

    [inv_fresh], [inv_acl_fresh] and [inv_grants] speak of the numbering of
    the handles; they carry the symbolic execution and are not themselves
    among the properties stated of the contract. *)

Record inv (ledger : address) (w : world) (t : Z) : Prop := Inv {
  inv_fresh : handles_fresh w;
  inv_clock : forall u, 0 <= last_of w u <= t;
  inv_claimed : forall u, claimed w u = true <-> 0 < last_of w u;
  inv_range : forall h, 0 <= FHE.value_of (fhe w) h < two64;
  inv_acl_fresh :
    forall h, (next_handle (fhe w) <= h)%N -> FHE.grants_of (fhe w) h = ∅;
  inv_grants :
    forall u, claimed w u = true ->
      FHE.grants_of (fhe w) (liquid_of w u) = {[ledger; u]}
      /\ FHE.grants_of (fhe w) (staked_of w u) = {[ledger; u]}
      /\ FHE.grants_of (fhe w) (pending_of w u) = {[ledger; u]}
}.

Lemma inv_genesis ledger : inv ledger genesis 0.
Proof.
  split.
  - intros u. unfold genesis. obs. rewrite !lookup_empty. cbn. lia.
  - intros u. unfold genesis. obs. rewrite lookup_empty. cbn. lia.
  - intros u. unfold genesis. obs. rewrite !lookup_empty. cbn.
    split; [discriminate|lia].
  - intros h. unfold genesis. obs. rewrite lookup_empty. cbn.
    unfold two64. lia.
  - intros h _. unfold genesis. obs. now rewrite lookup_empty.
  - intros u. unfold genesis. obs. rewrite lookup_empty. discriminate.
Qed.

Lemma to_uint64_range x : 0 <= to_uint64 x < two64.
Proof. unfold to_uint64. apply Z.mod_pos_bound. reflexivity. Qed.

Lemma mod64_range x : 0 <= x mod two64 < two64.
Proof. apply Z.mod_pos_bound. reflexivity. Qed.

Lemma div100_range x : 0 <= x < two64 -> 0 <= x / 100 < two64.
Proof.
  intros Hx. split.
  - apply Z.div_pos; lia.
  - apply Z.div_lt_upper_bound; lia.
Qed.

Lemma grant_both (a b : address) :
  {[b]} ∪ ({[a]} ∪ ∅) = ({[a; b]} : gset address).
Proof.
  apply leibniz_equiv. intros x.
  rewrite !elem_of_union, !elem_of_singleton, elem_of_empty. tauto.
Qed.

Lemma grant_both_again (a b : address) :
  {[b]} ∪ ({[a]} ∪ {[a; b]}) = ({[a; b]} : gset address).
Proof.
  apply leibniz_equiv. intros x.
  rewrite !elem_of_union, !elem_of_singleton. tauto.
Qed.

Ltac grants := rewrite ?grant_both, ?grant_both_again; auto.

(** Case analysis on a lookup in a map extended at fresh keys. *)
Ltac split_lookups :=
  repeat (rewrite lookup_insert; case_decide; cbn [from_option id]).

Lemma inv_accrue ledger e u w t :
  this e = ledger ->
  inv ledger w t ->
  claimed w u = true ->
  t <= block_timestamp e <= uint256_max ->
  elapsed_days e w u <> 0 ->
  inv ledger (accrue_world e u w) (block_timestamp e).
Proof.
  intros He [Hf Hclk Hcl Hrg Hafr Hgr] Hc Ht HD.
  pose proof (Hclk u) as Hlu.
  pose proof (whole_days_le (block_timestamp e - last_of w u) ltac:(lia))
    as Hspan.
  unfold accrue_world, elapsed_days in *.
  split.
  - apply (handles_fresh_accrue e u w Hf).
  - intros v. specialize (Hclk v). by_user v u; lia.
  - intros v. apply Hcl in Hc as Hpos. specialize (Hcl v).
    by_user v u.
    + split; [lia|tauto].
    + assumption.
  - intros h. obs. split_lookups;
      auto using to_uint64_range, mod64_range, div100_range.
  - intros h Hh. obs. lookups. apply Hafr. lia.
  - intros v. destruct (Hf v) as (Hl & Hs & Hp).
    specialize (Hgr v).
    pose proof (Hafr (N.succ (N.succ (N.succ (next_handle (fhe w)))))
                  ltac:(lia)) as Hnew.
    by_user v u.
    + intros Hv. rewrite Hnew. destruct (Hgr Hv) as (-> & -> & _).
      rewrite He. grants.
    + exact Hgr.
Qed.

Lemma inv_weaken ledger w t t' : inv ledger w t -> t <= t' -> inv ledger w t'.
Proof.
  intros [Hf Hclk Hcl Hrg Hafr Hgr] Ht. split; try assumption.
  intros u. specialize (Hclk u). lia.
Qed.

Lemma settle_world_claimed ledger e u w t :
  inv ledger w t -> claimed w u = true ->
  settle_world e u w
  = if elapsed_days e w u =? 0 then w else accrue_world e u w.
Proof.
  intros Hi Hc. apply (inv_claimed _ _ _ Hi) in Hc. unfold settle_world.
  destruct (Z.eqb_spec (last_of w u) 0); [lia|reflexivity].
Qed.

Lemma inv_settle ledger e u w t :
  this e = ledger ->
  inv ledger w t ->
  claimed w u = true ->
  t <= block_timestamp e <= uint256_max ->
  inv ledger (settle_world e u w) (block_timestamp e).
Proof.
  intros He Hi Hc Ht. rewrite (settle_world_claimed ledger e u w t Hi Hc).
  destruct (Z.eqb_spec (elapsed_days e w u) 0).
  - apply (inv_weaken ledger w t); [assumption|lia].
  - now apply (inv_accrue ledger e u w t).
Qed.

Lemma inv_claim_world ledger e w t :
  this e = ledger ->
  inv ledger w t ->
  claimed w (msg_sender e) = false ->
  t <= block_timestamp e -> 0 < block_timestamp e ->
  inv ledger (claim_world e w) (block_timestamp e).
Proof.
  intros He [Hf Hclk Hcl Hrg Hafr Hgr] Hc Ht Hpos.
  set (u := msg_sender e) in *. unfold claim_world. fold u.
  split.
  - intros v. destruct (Hf v) as (Hl & Hs & Hp). by_user v u; lia.
  - intros v. specialize (Hclk v). by_user v u; lia.
  - intros v. specialize (Hcl v). by_user v u; [split; [lia|reflexivity]|assumption].
  - intros h. obs. split_lookups; auto using to_uint64_range.
  - intros h Hh. obs. lookups. apply Hafr. lia.
  - intros v. destruct (Hf v) as (Hl & Hs & Hp).
    specialize (Hgr v).
    pose proof (Hafr (next_handle (fhe w)) ltac:(lia)) as Hnew0.
    pose proof (Hafr (N.succ (next_handle (fhe w))) ltac:(lia)) as Hnew1.
    by_user v u.
    + intros _. rewrite Hnew0, Hnew1, He. grants.
    + exact Hgr.
Qed.

Lemma inv_stake_body ledger a e w :
  this e = ledger ->
  inv ledger w (block_timestamp e) ->
  claimed w (msg_sender e) = true ->
  0 <= a < two64 ->
  inv ledger (stake_body a e w) (block_timestamp e).
Proof.
  intros He [Hf Hclk Hcl Hrg Hafr Hgr] Hc Ha.
  set (u := msg_sender e) in *. unfold stake_body. fold u.
  pose proof (Hclk u) as Hlu. apply Hcl in Hc as Hpos.
  split.
  - intros v. destruct (Hf v) as (Hl & Hs & Hp). by_user v u; lia.
  - intros v. specialize (Hclk v). by_user v u; lia.
  - intros v. specialize (Hcl v).
    by_user v u; [split; [lia|intros; assumption]|assumption].
  - intros h. obs. split_lookups; auto using mod64_range.
  - intros h Hh. obs. lookups. apply Hafr. lia.
  - intros v. destruct (Hf v) as (Hl & Hs & Hp).
    specialize (Hgr v).
    pose proof (Hafr (N.succ (next_handle (fhe w))) ltac:(lia)) as Hnew1.
    pose proof (Hafr (N.succ (N.succ (next_handle (fhe w)))) ltac:(lia))
      as Hnew2.
    by_user v u.
    + intros Hv. rewrite Hnew1, Hnew2, He. destruct (Hgr Hv) as (_ & _ & ->).
      grants.
    + exact Hgr.
Qed.

Lemma inv_unstake_body ledger a e w :
  this e = ledger ->
  inv ledger w (block_timestamp e) ->
  claimed w (msg_sender e) = true ->
  0 <= a < two64 ->
  inv ledger (unstake_body a e w) (block_timestamp e).
Proof.
  intros He [Hf Hclk Hcl Hrg Hafr Hgr] Hc Ha.
  set (u := msg_sender e) in *. unfold unstake_body. fold u.
  pose proof (Hclk u) as Hlu. apply Hcl in Hc as Hpos.
  split.
  - intros v. destruct (Hf v) as (Hl & Hs & Hp). by_user v u; lia.
  - intros v. specialize (Hclk v). by_user v u; lia.
  - intros v. specialize (Hcl v).
    by_user v u; [split; [lia|intros; assumption]|assumption].
  - intros h. obs. split_lookups; auto using mod64_range.
  - intros h Hh. obs. lookups. apply Hafr. lia.
  - intros v. destruct (Hf v) as (Hl & Hs & Hp).
    specialize (Hgr v).
    pose proof (Hafr (N.succ (next_handle (fhe w))) ltac:(lia)) as Hnew1.
    pose proof (Hafr (N.succ (N.succ (next_handle (fhe w)))) ltac:(lia))
      as Hnew2.
    by_user v u.
    + intros Hv. rewrite Hnew1, Hnew2, He. destruct (Hgr Hv) as (_ & _ & ->).
      grants.
    + exact Hgr.
Qed.

Lemma inv_interest_body ledger d e w :
  this e = ledger ->
  inv ledger w (block_timestamp e) ->
  claimed w (msg_sender e) = true ->
  inv ledger (interest_body d e w) (block_timestamp e).
Proof.
  intros He [Hf Hclk Hcl Hrg Hafr Hgr] Hc.
  set (u := msg_sender e) in *. unfold interest_body. fold u.
  pose proof (Hclk u) as Hlu. apply Hcl in Hc as Hpos.
  split.
  - intros v. destruct (Hf v) as (Hl & Hs & Hp). by_user v u; lia.
  - intros v. specialize (Hclk v). by_user v u; lia.
  - intros v. specialize (Hcl v).
    by_user v u; [split; [lia|intros; assumption]|assumption].
  - intros h. obs. split_lookups; auto using mod64_range, to_uint64_range.
  - intros h Hh. obs. lookups. apply Hafr. lia.
  - intros v. destruct (Hf v) as (Hl & Hs & Hp).
    specialize (Hgr v).
    pose proof (Hafr (next_handle (fhe w)) ltac:(lia)) as Hnew0.
    pose proof (Hafr (N.succ (next_handle (fhe w))) ltac:(lia)) as Hnew1.
    by_user v u.
    + intros Hv. rewrite Hnew0, Hnew1, He. destruct (Hgr Hv) as (_ & -> & _).
      grants.
    + exact Hgr.
Qed.

Lemma claimed_settle e u w v : claimed (settle_world e u w) v = claimed w v.
Proof.
  unfold settle_world, accrue_world.
  destruct (last_of w u =? 0); [reflexivity|].
  destruct (elapsed_days e w u =? 0); reflexivity.
Qed.

Lemma proof_ok_range e x p :
  FHE.proof_ok e x p = true -> 0 <= FHE.ext_plain x < two64.
Proof. unfold FHE.proof_ok. intros H. lia. Qed.

Lemma proof_of_ok ledger u t a :
  0 <= a < two64 ->
  FHE.proof_ok (Env ledger u t) (input_of a) (proof_of ledger u a) = true.
Proof.
  intros Ha. unfold FHE.proof_ok, input_of, proof_of. cbn.
  rewrite !N.eqb_refl, Z.eqb_refl. cbn. lia.
Qed.

(** ** What a transaction commits *)

Inductive committed (e : env) (w : world) : call -> world -> Prop :=
| commit_claim :
    claimed w (msg_sender e) = false ->
    committed e w ClaimInitial (claim_world e w)
| commit_stake x p :
    claimed w (msg_sender e) = true ->
    FHE.proof_ok e x p = true ->
    committed e w (Stake x p)
      (stake_body (FHE.ext_plain x) e (settle_world e (msg_sender e) w))
| commit_unstake x p :
    claimed w (msg_sender e) = true ->
    FHE.proof_ok e x p = true ->
    committed e w (Unstake x p)
      (unstake_body (FHE.ext_plain x) e (settle_world e (msg_sender e) w))
| commit_interest :
    claimed w (msg_sender e) = true ->
    committed e w ClaimInterest
      (interest_body (settle_days e w (msg_sender e)) e
         (settle_world e (msg_sender e) w)).

Lemma stake_bad_proof x p e w :
  claimed w (msg_sender e) = true ->
  handles_fresh w ->
  0 <= last_of w (msg_sender e) <= block_timestamp e ->
  block_timestamp e <= uint256_max ->
  FHE.proof_ok e x p = false ->
  fst (stake x p e w) = Revert InvalidProof.
Proof.
  intros Hc Hf Hle Hmax Hproof. unfold stake. do 3 step. rewrite Hc.
  rewrite (bind_eval _ _ _ _ _ _ (settle_eq e w _ Hf Hle Hmax)).
  step. now rewrite Hproof.
Qed.

Lemma unstake_bad_proof x p e w :
  claimed w (msg_sender e) = true ->
  handles_fresh w ->
  0 <= last_of w (msg_sender e) <= block_timestamp e ->
  block_timestamp e <= uint256_max ->
  FHE.proof_ok e x p = false ->
  fst (unstake x p e w) = Revert InvalidProof.
Proof.
  intros Hc Hf Hle Hmax Hproof. unfold unstake. do 3 step. rewrite Hc.
  rewrite (bind_eval _ _ _ _ _ _ (settle_eq e w _ Hf Hle Hmax)).
  step. now rewrite Hproof.
Qed.

Lemma execute_cases ledger e c w t :
  inv ledger w t ->
  t <= block_timestamp e <= uint256_max ->
  (succeeds e c w = false /\ execute e c w = w)
  \/ (succeeds e c w = true /\ committed e w c (execute e c w)).
Proof.
  intros Hi Ht. pose proof (inv_fresh _ _ _ Hi) as Hf.
  pose proof (inv_clock _ _ _ Hi (msg_sender e)) as Hclk.
  assert (0 <= last_of w (msg_sender e) <= block_timestamp e) as Hle by lia.
  assert (block_timestamp e <= uint256_max) as Hmax by lia.
  unfold succeeds, execute.
  destruct (claimed w (msg_sender e)) eqn:Hc; destruct c as [|x p|x p|]; cbn [dispatch].
  - rewrite (claimInitial_already e w Hc). now left.
  - destruct (FHE.proof_ok e x p) eqn:Hp.
    + rewrite (stake_eq x p e w Hc Hf Hle Hmax Hp). right.
      split; [reflexivity|]. now constructor.
    + pose proof (stake_bad_proof x p e w Hc Hf Hle Hmax Hp) as Hbad.
      destruct (stake x p e w) as [o w']. cbn in Hbad. subst o. now left.
  - destruct (FHE.proof_ok e x p) eqn:Hp.
    + rewrite (unstake_eq x p e w Hc Hf Hle Hmax Hp). right.
      split; [reflexivity|]. now constructor.
    + pose proof (unstake_bad_proof x p e w Hc Hf Hle Hmax Hp) as Hbad.
      destruct (unstake x p e w) as [o w']. cbn in Hbad. subst o. now left.
  - rewrite (claimInterest_eq e w Hc Hf Hle Hmax). right.
    split; [reflexivity|]. now constructor.
  - rewrite (claimInitial_eq e w Hc). right.
    split; [reflexivity|]. now constructor.
  - rewrite (stake_unclaimed x p e w Hc). now left.
  - rewrite (unstake_unclaimed x p e w Hc). now left.
  - rewrite (claimInterest_unclaimed e w Hc). now left.
Qed.

Lemma inv_committed ledger e c w w' t :
  this e = ledger ->
  inv ledger w t ->
  t <= block_timestamp e -> 0 < block_timestamp e <= uint256_max ->
  committed e w c w' ->
  inv ledger w' (block_timestamp e).
Proof.
  intros He Hi Ht Hb Hcom.
  destruct Hcom as [Hc|x p Hc Hp|x p Hc Hp|Hc].
  - now apply (inv_claim_world ledger e w t).
  - apply inv_stake_body; [assumption| |now rewrite claimed_settle|].
    + apply (inv_settle ledger e _ w t); [assumption..|lia].
    + now apply (proof_ok_range e x p).
  - apply inv_unstake_body; [assumption| |now rewrite claimed_settle|].
    + apply (inv_settle ledger e _ w t); [assumption..|lia].
    + now apply (proof_ok_range e x p).
  - apply inv_interest_body; [assumption| |now rewrite claimed_settle].
    apply (inv_settle ledger e _ w t); [assumption..|lia].
Qed.

Lemma inv_execute ledger e c w t :
  this e = ledger ->
  inv ledger w t ->
  t <= block_timestamp e -> 0 < block_timestamp e <= uint256_max ->
  inv ledger (execute e c w) (block_timestamp e).
Proof.
  intros He Hi Ht Hb.
  destruct (execute_cases ledger e c w t Hi ltac:(lia)) as [[_ ->]|[_ Hcom]].
  - now apply (inv_weaken ledger w t).
  - now apply (inv_committed ledger e c w _ t).
Qed.

Lemma inv_run ledger txs : forall w t,
  inv ledger w t -> chain_ok t txs ->
  inv ledger (run ledger w txs) (clock_after t txs).
Proof.
  induction txs as [|x rest IH]; intros w t Hi Hok; cbn in *.
  - assumption.
  - destruct Hok as (Ht & Hb & Hrest). apply IH; [|assumption].
    now apply (inv_execute ledger (tx_env ledger x) (tx_call x) w t).
Qed.

Lemma reachable_inv ledger w t : reachable ledger w t -> inv ledger w t.
Proof.
  intros (txs & Hok & <- & <-). apply inv_run; [apply inv_genesis|assumption].
Qed.

Lemma reachable_step ledger w t sender now c :
  reachable ledger w t ->
  t <= now -> 0 < now <= uint256_max ->
  reachable ledger (execute (Env ledger sender now) c w) now.
Proof.
  intros (txs & Hok & <- & <-) Ht Hb.
  exists (txs ++ [Tx sender now c]).
  assert (forall l clk w0, chain_ok clk l ->
            clock_after clk l <= now ->
            chain_ok clk (l ++ [Tx sender now c])
            /\ run ledger w0 (l ++ [Tx sender now c])
               = execute (Env ledger sender now) c (run ledger w0 l)
            /\ clock_after clk (l ++ [Tx sender now c]) = now) as Hsnoc.
  { induction l as [|x l IH]; intros clk w0 Hl Hc; cbn in *.
    - repeat split; try reflexivity; lia.
    - destruct Hl as (H1 & H2 & H3).
      destruct (IH (tx_time x) (execute (tx_env ledger x) (tx_call x) w0) H3 Hc)
        as (I1 & I2 & I3).
      repeat split; try assumption; lia. }
  apply Hsnoc; assumption.
Qed.

Lemma reachable_genesis ledger : reachable ledger genesis 0.
Proof. exists []. cbn. auto. Qed.

(** ** Plaintext view of an account *)

Record account : Type := Account {
  acc_liquid : Z;
  acc_staked : Z;
  acc_pending : Z;
  acc_last : Z;
  acc_claimed : bool
}.

Definition view (w : world) (u : address) : account :=
  Account (plain_liquid w u) (plain_staked w u) (plain_pending w u)
          (last_of w u) (claimed w u).

Ltac obs_view := unfold view in *; obs.

Lemma view_inj w u a b c d f :
  view w u = Account a b c d f ->
  plain_liquid w u = a /\ plain_staked w u = b /\ plain_pending w u = c
  /\ last_of w u = d /\ claimed w u = f.
Proof. unfold view. intros H. injection H. auto. Qed.

Ltac view_eqs Hv HL HS HP HT HC :=
  destruct (view_inj _ _ _ _ _ _ _ Hv) as (HL & HS & HP & HT & HC).

Lemma view_accrue_other e u w v :
  handles_fresh w -> v <> u -> view (accrue_world e u w) v = view w v.
Proof.
  intros Hf Hv. destruct (Hf v) as (Hl & Hs & Hp).
  unfold accrue_world. obs_view. lookups. reflexivity.
Qed.

Lemma view_accrue_self e u w :
  handles_fresh w ->
  view (accrue_world e u w) u
  = Account (plain_liquid w u) (plain_staked w u)
      ((plain_pending w u + accrued_interest w u (elapsed_days e w u))
         mod two64)
      (last_of w u + elapsed_days e w u * one_day) (claimed w u).
Proof.
  intros Hf. destruct (Hf u) as (Hl & Hs & Hp).
  unfold accrue_world, accrued_interest, elapsed_days. obs_view. lookups.
  unfold to_uint64. rewrite Z.mod_mod by discriminate.
  rewrite Z.mul_mod_idemp_r by discriminate. reflexivity.
Qed.

Lemma view_settle_other e u w v :
  handles_fresh w -> v <> u -> view (settle_world e u w) v = view w v.
Proof.
  intros Hf Hv. unfold settle_world.
  destruct (last_of w u =? 0).
  - obs_view. lookups. reflexivity.
  - destruct (elapsed_days e w u =? 0); [reflexivity|].
    now apply view_accrue_other.
Qed.

Lemma view_settle_self e u w :
  handles_fresh w -> last_of w u <> 0 ->
  view (settle_world e u w) u
  = if elapsed_days e w u =? 0 then view w u
    else Account (plain_liquid w u) (plain_staked w u)
           ((plain_pending w u + accrued_interest w u (elapsed_days e w u))
              mod two64)
           (last_of w u + elapsed_days e w u * one_day) (claimed w u).
Proof.
  intros Hf Hne. unfold settle_world.
  destruct (Z.eqb_spec (last_of w u) 0); [contradiction|].
  destruct (elapsed_days e w u =? 0); [reflexivity|].
  now apply view_accrue_self.
Qed.

Lemma view_claim_other e w v :
  handles_fresh w -> v <> msg_sender e -> view (claim_world e w) v = view w v.
Proof.
  intros Hf Hv. destruct (Hf v) as (Hl & Hs & Hp).
  unfold claim_world. obs_view. lookups. reflexivity.
Qed.

Lemma view_claim_self e w :
  view (claim_world e w) (msg_sender e)
  = Account INITIAL_GRANT 0 0 (block_timestamp e) true.
Proof. unfold claim_world. obs_view. lookups. reflexivity. Qed.

Lemma view_stake_other a e w v :
  handles_fresh w -> v <> msg_sender e -> view (stake_body a e w) v = view w v.
Proof.
  intros Hf Hv. destruct (Hf v) as (Hl & Hs & Hp).
  unfold stake_body. obs_view. lookups. reflexivity.
Qed.

Lemma view_stake_self a e w :
  handles_fresh w ->
  view (stake_body a e w) (msg_sender e)
  = Account ((plain_liquid w (msg_sender e) - a) mod two64)
      ((plain_staked w (msg_sender e) + a) mod two64)
      (plain_pending w (msg_sender e)) (block_timestamp e)
      (claimed w (msg_sender e)).
Proof.
  intros Hf. destruct (Hf (msg_sender e)) as (Hl & Hs & Hp).
  unfold stake_body. obs_view. lookups. reflexivity.
Qed.

Lemma view_unstake_other a e w v :
  handles_fresh w -> v <> msg_sender e ->
  view (unstake_body a e w) v = view w v.
Proof.
  intros Hf Hv. destruct (Hf v) as (Hl & Hs & Hp).
  unfold unstake_body. obs_view. lookups. reflexivity.
Qed.

Lemma view_unstake_self a e w :
  handles_fresh w ->
  view (unstake_body a e w) (msg_sender e)
  = Account ((plain_liquid w (msg_sender e) + a) mod two64)
      ((plain_staked w (msg_sender e) - a) mod two64)
      (plain_pending w (msg_sender e)) (block_timestamp e)
      (claimed w (msg_sender e)).
Proof.
  intros Hf. destruct (Hf (msg_sender e)) as (Hl & Hs & Hp).
  unfold unstake_body. obs_view. lookups. reflexivity.
Qed.

Lemma view_interest_other d e w v :
  handles_fresh w -> v <> msg_sender e ->
  view (interest_body d e w) v = view w v.
Proof.
  intros Hf Hv. destruct (Hf v) as (Hl & Hs & Hp).
  unfold interest_body. obs_view. lookups. reflexivity.
Qed.

Lemma view_interest_self d e w :
  handles_fresh w ->
  view (interest_body d e w) (msg_sender e)
  = Account
      ((plain_liquid w (msg_sender e) + plain_pending w (msg_sender e))
         mod two64)
      (plain_staked w (msg_sender e)) 0 (block_timestamp e)
      (claimed w (msg_sender e)).
Proof.
  intros Hf. destruct (Hf (msg_sender e)) as (Hl & Hs & Hp).
  unfold interest_body. obs_view. lookups. reflexivity.
Qed.

Lemma view_committed_other ledger e c w w' t v :
  inv ledger w t -> committed e w c w' -> v <> msg_sender e ->
  view w' v = view w v.
Proof.
  intros Hi Hcom Hv. pose proof (inv_fresh _ _ _ Hi) as Hf.
  pose proof (handles_fresh_settle e (msg_sender e) w Hf) as Hf1.
  destruct Hcom.
  - now apply view_claim_other.
  - rewrite view_stake_other by assumption. now apply view_settle_other.
  - rewrite view_unstake_other by assumption. now apply view_settle_other.
  - rewrite view_interest_other by assumption. now apply view_settle_other.
Qed.

(** ** Worlds of the replayed scenario are reachable *)

Lemma reach_claimed : reachable staking w_claimed 1000.
Proof.
  apply (reachable_step staking genesis 0 alice 1000 ClaimInitial);
    [apply reachable_genesis | lia | unfold uint256_max; lia].
Qed.

Lemma reach_staked500 : reachable staking w_staked500 1000.
Proof.
  apply (reachable_step staking w_claimed 1000 alice 1000
           (Stake (input_of 500) (proof_of staking alice 500)));
    [apply reach_claimed | lia | unfold uint256_max; lia].
Qed.

(** * The accrual step *)

(** C1. For an account whose checkpoint is set, [_settleRewards] takes
    [elapsedDays = floor((now - lastAccrualTimestamp) / 86400)].  When that
    is zero the world is left exactly as it was and 0 is returned.
    Otherwise the pending interest becomes
    [pendingInterest + floor(stakedBalance * elapsedDays / 100)], the
    product and the sum being taken in 64-bit unsigned arithmetic, the
    checkpoint advances by [elapsedDays * 86400], and [elapsedDays] is
    returned.  The world is any world the contract can be in, and the
    block is not older than the last one. *)
Theorem settleRewards_accrual ledger w t e u :
  reachable ledger w t ->
  last_of w u <> 0 ->
  t <= block_timestamp e <= uint256_max ->
  let d := (block_timestamp e - last_of w u) / 86400 in
  (d = 0 -> _settleRewards u e w = (Ok 0, w))
  /\ (d <> 0 ->
      fst (_settleRewards u e w) = Ok d
      /\ plain_pending (snd (_settleRewards u e w)) u
         = (plain_pending w u + ((plain_staked w u * d) mod 2 ^ 64) / 100)
             mod 2 ^ 64
      /\ last_of (snd (_settleRewards u e w)) u = last_of w u + d * 86400).
Proof.
  intros Hr Hne Ht d. apply reachable_inv in Hr.
  pose proof (inv_fresh _ _ _ Hr) as Hf.
  pose proof (inv_clock _ _ _ Hr u) as Hclk.
  change ((block_timestamp e - last_of w u) / 86400)
    with (elapsed_days e w u) in d.
  split; intros Hd.
  - apply settle_noop_eq; [assumption|lia|assumption].
  - rewrite settle_accrue_eq by (assumption || lia). cbn [fst snd].
    pose proof (view_accrue_self e u w Hf) as Hv.
    view_eqs Hv HL HS HP HT HC.
    split_and!; [reflexivity|exact HP|exact HT].
Qed.

Lemma settleRewards_accrual_witness :
  reachable staking w_staked500 1000
  /\ last_of w_staked500 alice <> 0
  /\ 1000 <= block_timestamp (at_time (1000 + 3 * 86400)) <= uint256_max
  /\ fst (_settleRewards alice (at_time (1000 + 3 * 86400)) w_staked500) = Ok 3
  /\ plain_pending
       (snd (_settleRewards alice (at_time (1000 + 3 * 86400)) w_staked500))
       alice = 15.
Proof.
  assert (last_of w_staked500 alice <> 0) as Hne by (vm_compute; discriminate).
  assert (1000 <= block_timestamp (at_time (1000 + 3 * 86400)) <= uint256_max)
    as Ht by (vm_compute; split; discriminate).
  destruct (settleRewards_accrual staking w_staked500 1000
              (at_time (1000 + 3 * 86400)) alice reach_staked500 Hne Ht)
    as [_ Hacc].
  destruct Hacc as (Hd & Hp & _); [vm_compute; discriminate|].
  split; [apply reach_staked500|]. split; [exact Hne|]. split; [exact Ht|].
  split.
  - rewrite Hd. vm_compute. reflexivity.
  - rewrite Hp. vm_compute. reflexivity.
Defined.

(** ** Effects of the operations on the caller's account *)

Lemma view_settle_balances ledger e u w t :
  inv ledger w t -> claimed w u = true ->
  plain_liquid (settle_world e u w) u = plain_liquid w u
  /\ plain_staked (settle_world e u w) u = plain_staked w u
  /\ claimed (settle_world e u w) u = true.
Proof.
  intros Hi Hc. pose proof (inv_fresh _ _ _ Hi) as Hf.
  apply (inv_claimed _ _ _ Hi) in Hc as Hpos.
  pose proof (view_settle_self e u w Hf ltac:(lia)) as Hv.
  rewrite claimed_settle.
  destruct (elapsed_days e w u =? 0);
    view_eqs Hv HL HS HP HT HC; auto.
Qed.

Lemma stake_effect ledger w t e x p :
  reachable ledger w t ->
  this e = ledger ->
  claimed w (msg_sender e) = true ->
  t <= block_timestamp e <= uint256_max ->
  FHE.proof_ok e x p = true ->
  exists w',
    stake x p e w = (Ok tt, w')
    /\ view w' (msg_sender e)
       = Account ((plain_liquid w (msg_sender e) - FHE.ext_plain x) mod two64)
           ((plain_staked w (msg_sender e) + FHE.ext_plain x) mod two64)
           (plain_pending (settle_world e (msg_sender e) w) (msg_sender e))
           (block_timestamp e) true.
Proof.
  intros Hr He Hc Ht Hp. apply reachable_inv in Hr.
  pose proof (inv_fresh _ _ _ Hr) as Hf.
  pose proof (inv_clock _ _ _ Hr (msg_sender e)) as Hclk.
  eexists. split.
  - apply stake_eq; [assumption|assumption|lia|lia|assumption].
  - rewrite view_stake_self by now apply handles_fresh_settle.
    destruct (view_settle_balances ledger e _ w t Hr Hc) as (-> & -> & ->).
    reflexivity.
Qed.

Lemma unstake_effect ledger w t e x p :
  reachable ledger w t ->
  this e = ledger ->
  claimed w (msg_sender e) = true ->
  t <= block_timestamp e <= uint256_max ->
  FHE.proof_ok e x p = true ->
  exists w',
    unstake x p e w = (Ok tt, w')
    /\ view w' (msg_sender e)
       = Account ((plain_liquid w (msg_sender e) + FHE.ext_plain x) mod two64)
           ((plain_staked w (msg_sender e) - FHE.ext_plain x) mod two64)
           (plain_pending (settle_world e (msg_sender e) w) (msg_sender e))
           (block_timestamp e) true.
Proof.
  intros Hr He Hc Ht Hp. apply reachable_inv in Hr.
  pose proof (inv_fresh _ _ _ Hr) as Hf.
  pose proof (inv_clock _ _ _ Hr (msg_sender e)) as Hclk.
  eexists. split.
  - apply unstake_eq; [assumption|assumption|lia|lia|assumption].
  - rewrite view_unstake_self by now apply handles_fresh_settle.
    destruct (view_settle_balances ledger e _ w t Hr Hc) as (-> & -> & ->).
    reflexivity.
Qed.

(** * Claiming the initial grant *)

(** C4. On an account that has not claimed, [claimInitial] succeeds; after
    it the liquid balance decrypts (for the owner) to [INITIAL_GRANT = 1000],
    the staked balance and the pending interest decrypt to 0, the claim flag
    is set and the checkpoint is the current block time.  [getInitialGrant]
    returns the constant 1000 and changes nothing. *)
Theorem claimInitial_grants e w :
  claimed w (msg_sender e) = false ->
  let u := msg_sender e in
  let w' := snd (claimInitial e w) in
  fst (claimInitial e w) = Ok tt
  /\ FHE.userDecrypt (fhe w') u (liquid_of w' u) = Some 1000
  /\ FHE.userDecrypt (fhe w') u (staked_of w' u) = Some 0
  /\ FHE.userDecrypt (fhe w') u (pending_of w' u) = Some 0
  /\ view w' u = Account INITIAL_GRANT 0 0 (block_timestamp e) true
  /\ INITIAL_GRANT = 1000
  /\ getInitialGrant e w = (Ok 1000, w).
Proof.
  intros Hc u w'. subst w'. rewrite (claimInitial_eq e w Hc). cbn [fst snd].
  split; [reflexivity|].
  assert (forall (a b : address) (s : gset address), a ∈ {[a]} ∪ ({[b]} ∪ s))
    as Hin by (intros; apply elem_of_union_l, elem_of_singleton; reflexivity).
  split_and!; try reflexivity.
  - unfold FHE.userDecrypt, claim_world. fold u. obs. lookups.
    rewrite decide_True by apply Hin. reflexivity.
  - unfold FHE.userDecrypt, claim_world. fold u. obs. lookups.
    rewrite decide_True by apply Hin. reflexivity.
  - unfold FHE.userDecrypt, claim_world. fold u. obs. lookups.
    rewrite decide_True by apply Hin. reflexivity.
  - apply view_claim_self.
Qed.

Lemma claimInitial_grants_witness :
  claimed genesis (msg_sender (at_time 1000)) = false
  /\ fst (claimInitial (at_time 1000) genesis) = Ok tt
  /\ view (snd (claimInitial (at_time 1000) genesis))
          (msg_sender (at_time 1000))
     = Account INITIAL_GRANT 0 0 (block_timestamp (at_time 1000)) true.
Proof.
  assert (claimed genesis (msg_sender (at_time 1000)) = false) as Hc
    by reflexivity.
  destruct (claimInitial_grants (at_time 1000) genesis Hc)
    as (Hok & _ & _ & _ & Hview & _).
  split; [exact Hc|]. split; [exact Hok|exact Hview].
Defined.

(** * Failing preconditions *)

(** C7. A second [claimInitial] fails with [ALREADY_CLAIMED]; [stake],
    [unstake] and [claimInterest] before the claim fail with
    [CLAIM_REQUIRED].  In each case the world at the point of failure is the
    world before the call: no field of any account was written, nothing was
    allocated, granted or logged. *)
Theorem precondition_errors_atomic e w x p :
  (claimed w (msg_sender e) = true ->
     claimInitial e w = (Revert ALREADY_CLAIMED, w)
     /\ execute e ClaimInitial w = w)
  /\ (claimed w (msg_sender e) = false ->
        stake x p e w = (Revert CLAIM_REQUIRED, w)
        /\ unstake x p e w = (Revert CLAIM_REQUIRED, w)
        /\ claimInterest e w = (Revert CLAIM_REQUIRED, w)
        /\ execute e (Stake x p) w = w
        /\ execute e (Unstake x p) w = w
        /\ execute e ClaimInterest w = w).
Proof.
  split; intros Hc.
  - unfold execute. cbn [dispatch].
    rewrite (claimInitial_already e w Hc). auto.
  - unfold execute. cbn [dispatch].
    rewrite (stake_unclaimed x p e w Hc), (unstake_unclaimed x p e w Hc),
      (claimInterest_unclaimed e w Hc). auto 10.
Qed.

Lemma precondition_errors_atomic_witness :
  (claimed w_claimed (msg_sender (at_time 2000)) = true
   /\ claimInitial (at_time 2000) w_claimed = (Revert ALREADY_CLAIMED, w_claimed))
  /\ (claimed genesis (msg_sender (at_time 2000)) = false
      /\ stake (input_of 5) (proof_of staking alice 5) (at_time 2000) genesis
         = (Revert CLAIM_REQUIRED, genesis)).
Proof.
  assert (claimed w_claimed (msg_sender (at_time 2000)) = true) as H1
    by (vm_compute; reflexivity).
  assert (claimed genesis (msg_sender (at_time 2000)) = false) as H2
    by reflexivity.
  split.
  - split; [exact H1|].
    exact (proj1 (proj1 (precondition_errors_atomic (at_time 2000) w_claimed
                           (input_of 5) (proof_of staking alice 5)) H1)).
  - split; [exact H2|].
    exact (proj1 (proj2 (precondition_errors_atomic (at_time 2000) genesis
                           (input_of 5) (proof_of staking alice 5)) H2)).
Defined.

(** * Staking and unstaking *)

Lemma wrap_below (x a : Z) :
  0 <= x < two64 -> 0 <= a < two64 -> x < a ->
  (x - a) mod two64 = x - a + two64.
Proof.
  intros Hx Ha Hlt. rewrite <- (Z_mod_plus_full (x - a) 1 two64).
  apply Z.mod_small. lia.
Qed.

(** C8. No insufficient-funds check exists: on a claimed account every
    [stake] and every [unstake] of a well-formed encrypted amount succeeds,
    whatever the amount, and the debited balance is
    [(old - amount) mod 2^64]; when the amount exceeds the balance that is
    [old - amount + 2^64]. *)
Theorem no_underflow_error ledger w t e x p :
  reachable ledger w t ->
  this e = ledger ->
  claimed w (msg_sender e) = true ->
  t <= block_timestamp e <= uint256_max ->
  FHE.proof_ok e x p = true ->
  let u := msg_sender e in
  let a := FHE.ext_plain x in
  (fst (stake x p e w) = Ok tt
   /\ plain_liquid (snd (stake x p e w)) u = (plain_liquid w u - a) mod 2 ^ 64
   /\ (plain_liquid w u < a ->
       plain_liquid (snd (stake x p e w)) u = plain_liquid w u - a + 2 ^ 64))
  /\ (fst (unstake x p e w) = Ok tt
      /\ plain_staked (snd (unstake x p e w)) u
         = (plain_staked w u - a) mod 2 ^ 64
      /\ (plain_staked w u < a ->
          plain_staked (snd (unstake x p e w)) u
          = plain_staked w u - a + 2 ^ 64)).
Proof.
  intros Hr He Hc Ht Hp u a. change (2 ^ 64) with two64.
  pose proof (reachable_inv _ _ _ Hr) as Hi.
  pose proof (inv_range _ _ _ Hi) as Hrg.
  pose proof (proof_ok_range e x p Hp) as Ha. fold a in Ha.
  split.
  - destruct (stake_effect ledger w t e x p Hr He Hc Ht Hp) as (w' & -> & Hv).
    cbn [fst snd]. view_eqs Hv HL HS HP HT HC.
    fold u a in HL. split_and!; [reflexivity|assumption|].
    intros Hlt. rewrite HL. apply wrap_below; [apply Hrg|assumption..].
  - destruct (unstake_effect ledger w t e x p Hr He Hc Ht Hp) as (w' & -> & Hv).
    cbn [fst snd]. view_eqs Hv HL HS HP HT HC.
    fold u a in HS. split_and!; [reflexivity|assumption|].
    intros Hlt. rewrite HS. apply wrap_below; [apply Hrg|assumption..].
Qed.

Lemma no_underflow_error_witness :
  reachable staking w_claimed 1000
  /\ claimed w_claimed (msg_sender (at_time 1000)) = true
  /\ FHE.proof_ok (at_time 1000) (input_of 5000) (proof_of staking alice 5000)
     = true
  /\ plain_liquid w_claimed alice < 5000
  /\ fst (stake (input_of 5000) (proof_of staking alice 5000) (at_time 1000)
            w_claimed) = Ok tt
  /\ plain_liquid
       (snd (stake (input_of 5000) (proof_of staking alice 5000)
               (at_time 1000) w_claimed)) alice
     = 1000 - 5000 + 2 ^ 64.
Proof.
  assert (claimed w_claimed (msg_sender (at_time 1000)) = true) as Hc
    by (vm_compute; reflexivity).
  assert (FHE.proof_ok (at_time 1000) (input_of 5000)
            (proof_of staking alice 5000) = true) as Hp
    by (vm_compute; reflexivity).
  assert (1000 <= block_timestamp (at_time 1000) <= uint256_max) as Ht
    by (vm_compute; split; discriminate).
  assert (plain_liquid w_claimed alice = 1000) as HL
    by (vm_compute; reflexivity).
  destruct (no_underflow_error staking w_claimed 1000 (at_time 1000)
              (input_of 5000) (proof_of staking alice 5000)
              reach_claimed eq_refl Hc Ht Hp) as ((Hok & _ & Hwrap) & _).
  split; [exact reach_claimed|]. split; [exact Hc|]. split; [exact Hp|].
  split; [rewrite HL; reflexivity|]. split; [exact Hok|].
  cbn [msg_sender at_time FHE.ext_plain input_of] in Hwrap.
  rewrite HL in Hwrap. apply Hwrap. reflexivity.
Defined.

Lemma roundtrip_mod (x a : Z) :
  0 <= x < two64 ->
  ((x - a) mod two64 + a) mod two64 = x
  /\ ((x + a) mod two64 - a) mod two64 = x.
Proof.
  intros Hx. split.
  - rewrite Zplus_mod_idemp_l. replace (x - a + a) with x by ring.
    now apply Z.mod_small.
  - rewrite Zminus_mod_idemp_l. replace (x + a - a) with x by ring.
    now apply Z.mod_small.
Qed.

(** C6. Round trip: on a claimed account, staking an amount not larger
    than the liquid balance and then unstaking the same amount (at the same
    or any later block) succeeds twice and brings the plaintext liquid and
    staked balances back to what they were before the stake. *)
Theorem stake_unstake_roundtrip ledger w t u a t1 t2 :
  reachable ledger w t ->
  claimed w u = true ->
  0 <= a <= plain_liquid w u ->
  t <= t1 -> t1 <= t2 -> t2 <= uint256_max ->
  let e1 := Env ledger u t1 in
  let e2 := Env ledger u t2 in
  let x := input_of a in
  let p := proof_of ledger u a in
  let w1 := snd (stake x p e1 w) in
  let w2 := snd (unstake x p e2 w1) in
  fst (stake x p e1 w) = Ok tt
  /\ fst (unstake x p e2 w1) = Ok tt
  /\ plain_liquid w2 u = plain_liquid w u
  /\ plain_staked w2 u = plain_staked w u.
Proof.
  intros Hr Hc Ha Ht1 Ht2 Hmax. cbv zeta.
  pose proof (reachable_inv _ _ _ Hr) as Hi.
  pose proof (inv_range _ _ _ Hi (liquid_of w u)) as HL.
  pose proof (inv_range _ _ _ Hi (staked_of w u)) as HS.
  fold (plain_liquid w u) in HL. fold (plain_staked w u) in HS.
  pose proof (inv_clock _ _ _ Hi u) as Hclk.
  apply (inv_claimed _ _ _ Hi) in Hc as Hpos.
  assert (0 <= a < two64) as Ha' by lia.
  pose proof (proof_of_ok ledger u t1 a Ha') as Hp1.
  pose proof (proof_of_ok ledger u t2 a Ha') as Hp2.
  destruct (stake_effect ledger w t (Env ledger u t1) (input_of a)
              (proof_of ledger u a) Hr eq_refl Hc ltac:(cbn; lia) Hp1)
    as (w1 & Heq1 & Hv1).
  cbn [msg_sender block_timestamp FHE.ext_plain input_of] in Hv1.
  assert (reachable ledger w1 t1) as Hr1.
  { replace w1
      with (execute (Env ledger u t1)
              (Stake (input_of a) (proof_of ledger u a)) w).
    - apply (reachable_step ledger w t u t1); [assumption|lia|lia].
    - unfold execute. cbn [dispatch]. now rewrite Heq1. }
  rewrite Heq1. cbn [fst snd].
  view_eqs Hv1 HL1 HS1 HP1 HT1 Hc1.
  destruct (unstake_effect ledger w1 t1 (Env ledger u t2) (input_of a)
              (proof_of ledger u a) Hr1 eq_refl Hc1 ltac:(cbn; lia) Hp2)
    as (w2 & Heq2 & Hv2).
  cbn [msg_sender block_timestamp FHE.ext_plain input_of] in Hv2.
  rewrite Heq2. cbn [fst snd].
  view_eqs Hv2 HL2 HS2 HP2 HT2 Hc2.
  rewrite HL1 in HL2. rewrite HS1 in HS2.
  destruct (roundtrip_mod (plain_liquid w u) a HL) as [RL _].
  destruct (roundtrip_mod (plain_staked w u) a HS) as [_ RS].
  split_and!; try reflexivity; congruence.
Qed.

Lemma stake_unstake_roundtrip_witness :
  reachable staking w_claimed 1000
  /\ claimed w_claimed alice = true
  /\ 0 <= 250 <= plain_liquid w_claimed alice
  /\ plain_liquid
       (snd (unstake (input_of 250) (proof_of staking alice 250)
               (Env staking alice 5000)
               (snd (stake (input_of 250) (proof_of staking alice 250)
                       (Env staking alice 2000) w_claimed)))) alice
     = plain_liquid w_claimed alice.
Proof.
  assert (claimed w_claimed alice = true) as Hc by (vm_compute; reflexivity).
  assert (0 <= 250 <= plain_liquid w_claimed alice) as Ha
    by (vm_compute; split; discriminate).
  assert (5000 <= uint256_max) as Hmax by (vm_compute; discriminate).
  destruct (stake_unstake_roundtrip staking w_claimed 1000 alice 250 2000 5000
              reach_claimed Hc Ha ltac:(lia) ltac:(lia) Hmax)
    as (_ & _ & HL & _).
  split; [exact reach_claimed|]. split; [exact Hc|]. split; [exact Ha|].
  exact HL.
Defined.

(** * Claiming interest *)

Lemma logs_settle e u w : logs (settle_world e u w) = logs w.
Proof.
  unfold settle_world, accrue_world.
  destruct (last_of w u =? 0); [reflexivity|].
  destruct (elapsed_days e w u =? 0); reflexivity.
Qed.

Lemma accrued_interest_range w u d : 0 <= accrued_interest w u d < two64.
Proof. unfold accrued_interest. apply div100_range, mod64_range. Qed.

Lemma interest_effect ledger w t e :
  reachable ledger w t ->
  this e = ledger ->
  claimed w (msg_sender e) = true ->
  t <= block_timestamp e <= uint256_max ->
  exists w',
    claimInterest e w = (Ok tt, w')
    /\ view w' (msg_sender e)
       = Account
           ((plain_liquid w (msg_sender e)
             + plain_pending (settle_world e (msg_sender e) w) (msg_sender e))
              mod two64)
           (plain_staked w (msg_sender e)) 0 (block_timestamp e) true
    /\ logs w'
       = logs w ++ [InterestClaimed (msg_sender e)
                      (elapsed_days e w (msg_sender e))]
    /\ FHE.userDecrypt (fhe w') (msg_sender e) (pending_of w' (msg_sender e))
       = Some 0.
Proof.
  intros Hr He Hc Ht. apply reachable_inv in Hr.
  pose proof (inv_fresh _ _ _ Hr) as Hf.
  pose proof (inv_clock _ _ _ Hr (msg_sender e)) as Hclk.
  apply (inv_claimed _ _ _ Hr) in Hc as Hpos.
  eexists. split; [|split; [|split]].
  - apply claimInterest_eq; [assumption|assumption|lia|lia].
  - rewrite view_interest_self by now apply handles_fresh_settle.
    destruct (view_settle_balances ledger e _ w t Hr Hc) as (-> & -> & ->).
    reflexivity.
  - unfold settle_days.
    destruct (Z.eqb_spec (last_of w (msg_sender e)) 0); [lia|].
    unfold interest_body at 1. obs. now rewrite logs_settle.
  - unfold FHE.userDecrypt, interest_body. obs. lookups.
    rewrite decide_True
      by (apply elem_of_union_l, elem_of_singleton; reflexivity).
    reflexivity.
Qed.

(** C2, as the code has it.  On a claimed account with staked balance [S]
    and no pending interest, a [claimInterest] sent when exactly [d >= 1]
    whole days have passed since the checkpoint succeeds, adds
    [floor(((S * d) mod 2^64) / 100)] to the liquid balance modulo [2^64]
    (that is [floor(S * d / 100)] whenever [S * d < 2^64]), leaves the
    pending interest as a fresh encryption of 0 that the owner can decrypt,
    and logs [InterestClaimed] carrying [d], the day count. *)
Theorem claimInterest_after_days ledger w t e d :
  reachable ledger w t ->
  this e = ledger ->
  claimed w (msg_sender e) = true ->
  plain_pending w (msg_sender e) = 0 ->
  t <= block_timestamp e <= uint256_max ->
  d = (block_timestamp e - last_of w (msg_sender e)) / 86400 ->
  1 <= d ->
  let u := msg_sender e in
  let w' := snd (claimInterest e w) in
  fst (claimInterest e w) = Ok tt
  /\ plain_liquid w' u
     = (plain_liquid w u + ((plain_staked w u * d) mod 2 ^ 64) / 100)
         mod 2 ^ 64
  /\ (plain_staked w u * d < 2 ^ 64 ->
      plain_liquid w' u = (plain_liquid w u + plain_staked w u * d / 100)
                            mod 2 ^ 64)
  /\ plain_pending w' u = 0
  /\ FHE.userDecrypt (fhe w') u (pending_of w' u) = Some 0
  /\ logs w' = logs w ++ [InterestClaimed u d].
Proof.
  intros Hr He Hc Hp0 Ht Hd Hd1 u w'. change (2 ^ 64) with two64.
  change ((block_timestamp e - last_of w (msg_sender e)) / 86400)
    with (elapsed_days e w u) in Hd.
  pose proof (reachable_inv _ _ _ Hr) as Hi.
  pose proof (inv_fresh _ _ _ Hi) as Hf.
  apply (inv_claimed _ _ _ Hi) in Hc as Hpos.
  destruct (interest_effect ledger w t e Hr He Hc Ht)
    as (w1 & Heq & Hv & Hlog & Hdec).
  subst w'. rewrite Heq. cbn [fst snd]. fold u in Hv, Hlog, Hdec, Hpos, Hp0.
  pose proof (view_settle_self e u w Hf ltac:(lia)) as Hs.
  destruct (Z.eqb_spec (elapsed_days e w u) 0) as [H0|_]; [lia|].
  view_eqs Hs HsL HsS HsP HsT HsC. clear Hs. rename HsP into Hs.
  rewrite Hp0, Z.add_0_l, <- Hd in Hs.
  rewrite (Z.mod_small _ _ (accrued_interest_range w u d)) in Hs.
  view_eqs Hv HL HS HP HT HC.
  rewrite Hs in HL. unfold accrued_interest in HL.
  assert (0 <= plain_staked w u) as HS0 by apply (inv_range _ _ _ Hi).
  split_and!; try assumption; try reflexivity.
  - intros Hsmall. rewrite HL. rewrite (Z.mod_small (plain_staked w u * d));
      [reflexivity|]. split; [apply Z.mul_nonneg_nonneg; lia|assumption].
  - now rewrite Hlog, Hd.
Qed.

Lemma claimInterest_after_days_witness :
  reachable staking w_staked500 1000
  /\ claimed w_staked500 (msg_sender (at_time (1000 + 3 * 86400))) = true
  /\ plain_pending w_staked500 (msg_sender (at_time (1000 + 3 * 86400))) = 0
  /\ fst (claimInterest (at_time (1000 + 3 * 86400)) w_staked500) = Ok tt
  /\ plain_liquid (snd (claimInterest (at_time (1000 + 3 * 86400)) w_staked500))
       alice = 515
  /\ logs (snd (claimInterest (at_time (1000 + 3 * 86400)) w_staked500))
     = logs w_staked500 ++ [InterestClaimed alice 3].
Proof.
  assert (claimed w_staked500 (msg_sender (at_time (1000 + 3 * 86400))) = true)
    as Hc by (vm_compute; reflexivity).
  assert (plain_pending w_staked500 (msg_sender (at_time (1000 + 3 * 86400)))
          = 0) as Hp by (vm_compute; reflexivity).
  assert (1000 <= block_timestamp (at_time (1000 + 3 * 86400)) <= uint256_max)
    as Ht by (vm_compute; split; discriminate).
  assert (3 = (block_timestamp (at_time (1000 + 3 * 86400))
               - last_of w_staked500 (msg_sender (at_time (1000 + 3 * 86400))))
              / 86400) as Hd by (vm_compute; reflexivity).
  destruct (claimInterest_after_days staking w_staked500 1000
              (at_time (1000 + 3 * 86400)) 3 reach_staked500 eq_refl Hc Hp Ht
              Hd ltac:(lia)) as (Hok & HL & _ & _ & _ & Hlog).
  split; [exact reach_staked500|]. split; [exact Hc|]. split; [exact Hp|].
  split; [exact Hok|]. split; [|exact Hlog].
  cbn [msg_sender at_time] in HL. rewrite HL. vm_compute. reflexivity.
Defined.

Definition w_staked_huge : world :=
  execute (at_time 1000)
    (Stake (input_of (2 ^ 63)) (proof_of staking alice (2 ^ 63))) w_claimed.

Lemma reach_staked_huge : reachable staking w_staked_huge 1000.
Proof.
  apply (reachable_step staking w_claimed 1000 alice 1000
           (Stake (input_of (2 ^ 63)) (proof_of staking alice (2 ^ 63))));
    [apply reach_claimed | lia | unfold uint256_max; lia].
Qed.

(** C2 as stated fails: with [S = 2^63] staked (reachable: nothing checks
    the stake against the liquid balance) and [D = 2] days elapsed,
    [claimInterest] succeeds but the liquid balance does not grow by
    [floor(S * D / 100) = 184467440737095516]; the 64-bit product wraps to 0
    and nothing is added. *)
Lemma claimInterest_after_days_counterexample :
  claimed w_staked_huge alice = true
  /\ plain_staked w_staked_huge alice = 2 ^ 63
  /\ plain_pending w_staked_huge alice = 0
  /\ (block_timestamp (at_time (1000 + 2 * 86400))
      - last_of w_staked_huge alice) / 86400 = 2
  /\ fst (claimInterest (at_time (1000 + 2 * 86400)) w_staked_huge) = Ok tt
  /\ plain_liquid (snd (claimInterest (at_time (1000 + 2 * 86400))
                          w_staked_huge)) alice
     = plain_liquid w_staked_huge alice
  /\ plain_liquid (snd (claimInterest (at_time (1000 + 2 * 86400))
                          w_staked_huge)) alice
     <> plain_liquid w_staked_huge alice + 2 ^ 63 * 2 / 100
  /\ plain_liquid (snd (claimInterest (at_time (1000 + 2 * 86400))
                          w_staked_huge)) alice
     <> (plain_liquid w_staked_huge alice + 2 ^ 63 * 2 / 100) mod 2 ^ 64.
Proof.
  vm_compute. split_and!; try reflexivity; discriminate.
Qed.

(** * Conservation *)

Definition bucket_sum (w : world) (u : address) : Z :=
  plain_liquid w u + plain_staked w u + plain_pending w u.

(** The interest the accrual step creates for [u] when run in world [w]. *)
Definition settle_interest (e : env) (w : world) (u : address) : Z :=
  if last_of w u =? 0 then 0
  else if elapsed_days e w u =? 0 then 0
  else accrued_interest w u (elapsed_days e w u).

(** The interest a transaction creates for [u]: only a committed [stake],
    [unstake] or [claimInterest] of [u] itself runs the accrual step. *)
Definition interest_of_tx (ledger u : address) (w : world) (x : tx) : Z :=
  match tx_call x with
  | ClaimInitial => 0
  | _ =>
      if (tx_sender x =? u)%N
         && succeeds (tx_env ledger x) (tx_call x) w
      then settle_interest (tx_env ledger x) w u
      else 0
  end.

(** All interest ever accrued for [u] along a history started in [w]. *)
Fixpoint total_accrued (ledger u : address) (w : world) (txs : list tx) : Z :=
  match txs with
  | [] => 0
  | x :: rest =>
      interest_of_tx ledger u w x
      + total_accrued ledger u
          (execute (tx_env ledger x) (tx_call x) w) rest
  end.

Definition conserved (w : world) (u : address) (acc : Z) : Prop :=
  if claimed w u
  then bucket_sum w u mod two64 = (INITIAL_GRANT + acc) mod two64
  else acc = 0.

Lemma add_mod_cong (x x' y y' : Z) :
  x mod two64 = x' mod two64 -> y mod two64 = y' mod two64 ->
  (x + y) mod two64 = (x' + y') mod two64.
Proof.
  intros Hx Hy. rewrite (Z.add_mod x y), (Z.add_mod x' y') by discriminate.
  now rewrite Hx, Hy.
Qed.

Lemma settle_pending_mod ledger e u w t :
  inv ledger w t -> claimed w u = true ->
  plain_pending (settle_world e u w) u mod two64
  = (plain_pending w u + settle_interest e w u) mod two64.
Proof.
  intros Hi Hc. pose proof (inv_fresh _ _ _ Hi) as Hf.
  apply (inv_claimed _ _ _ Hi) in Hc as Hpos.
  pose proof (view_settle_self e u w Hf ltac:(lia)) as Hv.
  unfold settle_interest.
  destruct (Z.eqb_spec (last_of w u) 0); [lia|].
  destruct (elapsed_days e w u =? 0); view_eqs Hv HL HS HP HT HC; rewrite HP.
  - now rewrite Z.add_0_r.
  - apply Z.mod_mod. discriminate.
Qed.

Lemma bucket_sum_eq w u :
  bucket_sum w u = plain_liquid w u + plain_staked w u + plain_pending w u.
Proof. reflexivity. Qed.

Lemma conserved_claimed w u acc :
  claimed w u = true ->
  conserved w u acc
  <-> bucket_sum w u mod two64 = (INITIAL_GRANT + acc) mod two64.
Proof. intros Hc. unfold conserved. now rewrite Hc. Qed.

Lemma conserved_unclaimed w u acc :
  claimed w u = false -> conserved w u acc <-> acc = 0.
Proof. intros Hc. unfold conserved. now rewrite Hc. Qed.

Lemma conserved_committed ledger e c w w' t u acc :
  this e = ledger ->
  inv ledger w t ->
  committed e w c w' ->
  conserved w u acc ->
  conserved w' u
    (acc + match c with
           | ClaimInitial => 0
           | _ => if (msg_sender e =? u)%N then settle_interest e w u else 0
           end).
Proof.
  intros He Hi Hcom Hcons. pose proof (inv_fresh _ _ _ Hi) as Hf.
  pose proof (handles_fresh_settle e (msg_sender e) w Hf) as Hf1.
  destruct (N.eqb_spec (msg_sender e) u) as [<-|Hne].
  - destruct Hcom as [Hc|x p Hc Hp|x p Hc Hp|Hc].
    + apply (conserved_unclaimed _ _ _ Hc) in Hcons.
      pose proof (view_claim_self e w) as Hv.
      view_eqs Hv HL HS HP HT HC.
      apply (conserved_claimed _ _ _ HC).
      rewrite bucket_sum_eq, HL, HS, HP, Hcons. reflexivity.
    + apply (conserved_claimed _ _ _ Hc) in Hcons.
      destruct (view_settle_balances ledger e _ w t Hi Hc) as (L1 & S1 & C1).
      pose proof (settle_pending_mod ledger e _ w t Hi Hc) as P1.
      pose proof (view_stake_self (FHE.ext_plain x) e _ Hf1) as Hv.
      view_eqs Hv HL HS HP HT HC. rewrite C1 in HC.
      apply (conserved_claimed _ _ _ HC).
      rewrite bucket_sum_eq in *. rewrite HL, HS, HP, L1, S1.
      rewrite Z.add_assoc.
      rewrite <- (add_mod_cong _ _ _ _ Hcons eq_refl).
      replace (plain_liquid w (msg_sender e) + plain_staked w (msg_sender e)
               + plain_pending w (msg_sender e)
               + settle_interest e w (msg_sender e))
        with ((plain_liquid w (msg_sender e) - FHE.ext_plain x)
              + (plain_staked w (msg_sender e) + FHE.ext_plain x)
              + (plain_pending w (msg_sender e)
                 + settle_interest e w (msg_sender e))) by ring.
      apply add_mod_cong; [apply add_mod_cong|assumption];
        apply Z.mod_mod; discriminate.
    + apply (conserved_claimed _ _ _ Hc) in Hcons.
      destruct (view_settle_balances ledger e _ w t Hi Hc) as (L1 & S1 & C1).
      pose proof (settle_pending_mod ledger e _ w t Hi Hc) as P1.
      pose proof (view_unstake_self (FHE.ext_plain x) e _ Hf1) as Hv.
      view_eqs Hv HL HS HP HT HC. rewrite C1 in HC.
      apply (conserved_claimed _ _ _ HC).
      rewrite bucket_sum_eq in *. rewrite HL, HS, HP, L1, S1.
      rewrite Z.add_assoc.
      rewrite <- (add_mod_cong _ _ _ _ Hcons eq_refl).
      replace (plain_liquid w (msg_sender e) + plain_staked w (msg_sender e)
               + plain_pending w (msg_sender e)
               + settle_interest e w (msg_sender e))
        with ((plain_liquid w (msg_sender e) + FHE.ext_plain x)
              + (plain_staked w (msg_sender e) - FHE.ext_plain x)
              + (plain_pending w (msg_sender e)
                 + settle_interest e w (msg_sender e))) by ring.
      apply add_mod_cong; [apply add_mod_cong|assumption];
        apply Z.mod_mod; discriminate.
    + apply (conserved_claimed _ _ _ Hc) in Hcons.
      destruct (view_settle_balances ledger e _ w t Hi Hc) as (L1 & S1 & C1).
      pose proof (settle_pending_mod ledger e _ w t Hi Hc) as P1.
      pose proof (view_interest_self (settle_days e w (msg_sender e)) e _ Hf1)
        as Hv.
      view_eqs Hv HL HS HP HT HC. rewrite C1 in HC.
      apply (conserved_claimed _ _ _ HC).
      rewrite bucket_sum_eq in *. rewrite HL, HS, HP, L1, S1.
      rewrite Z.add_assoc.
      rewrite <- (add_mod_cong _ _ _ _ Hcons eq_refl).
      replace (plain_liquid w (msg_sender e) + plain_staked w (msg_sender e)
               + plain_pending w (msg_sender e)
               + settle_interest e w (msg_sender e))
        with ((plain_liquid w (msg_sender e)
               + (plain_pending w (msg_sender e)
                  + settle_interest e w (msg_sender e)))
              + plain_staked w (msg_sender e) + 0) by ring.
      apply add_mod_cong; [apply add_mod_cong|]; try reflexivity.
      rewrite Z.mod_mod by discriminate.
      apply add_mod_cong; [reflexivity|assumption].
  - assert (u <> msg_sender e) as Hne' by congruence.
    pose proof (view_committed_other ledger e c w w' t u Hi Hcom Hne') as Hv.
    view_eqs Hv HL HS HP HT HC.
    replace (acc + _) with acc by (destruct c; lia).
    destruct (claimed w u) eqn:Hc.
    + apply (conserved_claimed _ _ _ Hc) in Hcons.
      apply (conserved_claimed _ _ _ HC).
      rewrite bucket_sum_eq in *. now rewrite HL, HS, HP.
    + apply (conserved_unclaimed _ _ _ Hc) in Hcons.
      now apply (conserved_unclaimed _ _ _ HC).
Qed.

Lemma conserved_execute ledger x w t u acc :
  inv ledger w t ->
  t <= tx_time x <= uint256_max ->
  conserved w u acc ->
  conserved (execute (tx_env ledger x) (tx_call x) w) u
    (acc + interest_of_tx ledger u w x).
Proof.
  intros Hi Ht Hcons. unfold interest_of_tx.
  destruct (execute_cases ledger (tx_env ledger x) (tx_call x) w t Hi Ht)
    as [[Hs ->]|[Hs Hcom]]; rewrite Hs.
  - replace (acc + _) with acc; [assumption|].
    destruct (tx_call x); rewrite ?andb_false_r; lia.
  - pose proof (conserved_committed ledger (tx_env ledger x) (tx_call x) w _
                  t u acc eq_refl Hi Hcom Hcons) as H.
    cbn [msg_sender tx_env] in H. rewrite !andb_true_r. exact H.
Qed.

Lemma conserved_run ledger u txs : forall w t acc,
  inv ledger w t -> chain_ok t txs -> conserved w u acc ->
  conserved (run ledger w txs) u (acc + total_accrued ledger u w txs).
Proof.
  induction txs as [|x rest IH]; intros w t acc Hi Hok Hcons; cbn in *.
  - now rewrite Z.add_0_r.
  - destruct Hok as (Ht & Hb & Hrest). rewrite Z.add_assoc.
    apply (IH _ (tx_time x)); [|assumption|].
    + now apply (inv_execute ledger (tx_env ledger x) (tx_call x) w t).
    + apply (conserved_execute ledger x w t); [assumption|lia|assumption].
Qed.

(** C3. Conservation.  After any history of public calls, the plaintext
    liquid, staked and pending-interest values of a claimed account add up,
    in 64-bit unsigned arithmetic, to [INITIAL_GRANT] plus all the interest
    the accrual step ever created for that account: stake, unstake and
    claimInterest only move value between the buckets. *)
Theorem conservation ledger txs u :
  chain_ok 0 txs ->
  let w := run ledger genesis txs in
  claimed w u = true ->
  (plain_liquid w u + plain_staked w u + plain_pending w u) mod 2 ^ 64
  = (INITIAL_GRANT + total_accrued ledger u genesis txs) mod 2 ^ 64.
Proof.
  intros Hok w Hc.
  pose proof (conserved_run ledger u txs genesis 0 0 (inv_genesis ledger) Hok
                eq_refl) as H.
  fold w in H. apply (conserved_claimed _ _ _ Hc) in H.
  rewrite bucket_sum_eq in H. exact H.
Qed.

Definition history_interest : list tx :=
  [ Tx alice 1000 ClaimInitial;
    Tx alice 1000 (Stake (input_of 500) (proof_of staking alice 500));
    Tx alice (1000 + 3 * 86400) ClaimInterest ].

Lemma conservation_witness :
  chain_ok 0 history_interest
  /\ claimed (run staking genesis history_interest) alice = true
  /\ (plain_liquid (run staking genesis history_interest) alice
      + plain_staked (run staking genesis history_interest) alice
      + plain_pending (run staking genesis history_interest) alice)
       mod 2 ^ 64
     = (INITIAL_GRANT + total_accrued staking alice genesis history_interest)
         mod 2 ^ 64
  /\ total_accrued staking alice genesis history_interest = 15.
Proof.
  assert (chain_ok 0 history_interest) as Hok
    by (cbn; unfold uint256_max; lia).
  assert (claimed (run staking genesis history_interest) alice = true) as Hc
    by (vm_compute; reflexivity).
  split; [exact Hok|]. split; [exact Hc|].
  split; [exact (conservation staking history_interest alice Hok Hc)|].
  vm_compute. reflexivity.
Defined.

(** * The checkpoint and the claim flag *)

(** C10. Block timestamps being strictly positive (as [chain_ok] demands of
    every history), in every reachable world an account has claimed exactly
    when its checkpoint is positive.  So whenever [stake], [unstake] or
    [claimInterest] gets past its [require(hasClaimed[user])], the test
    [lastTimestamp == 0] of [_settleRewards] is false: the step is the
    no-op or the accrual, never the bootstrap branch. *)
Theorem claimed_iff_checkpointed ledger w t :
  reachable ledger w t ->
  (forall u, claimed w u = true <-> 0 < last_of w u)
  /\ (forall e,
        claimed w (msg_sender e) = true ->
        t <= block_timestamp e <= uint256_max ->
        (last_of w (msg_sender e) =? 0) = false
        /\ _settleRewards (msg_sender e) e w
           = (Ok (elapsed_days e w (msg_sender e)),
              if elapsed_days e w (msg_sender e) =? 0 then w
              else accrue_world e (msg_sender e) w)).
Proof.
  intros Hr. apply reachable_inv in Hr. split.
  - apply (inv_claimed _ _ _ Hr).
  - intros e Hc Ht. pose proof (inv_fresh _ _ _ Hr) as Hf.
    pose proof (inv_clock _ _ _ Hr (msg_sender e)) as Hclk.
    apply (inv_claimed _ _ _ Hr) in Hc as Hpos.
    pose proof (settle_eq e w (msg_sender e) Hf ltac:(lia) ltac:(lia)) as Heq.
    unfold settle_days, settle_world in Heq.
    destruct (Z.eqb_spec (last_of w (msg_sender e)) 0); [lia|].
    split; [reflexivity|]. rewrite Heq.
    destruct (elapsed_days e w (msg_sender e) =? 0); reflexivity.
Qed.

Lemma claimed_iff_checkpointed_witness :
  reachable staking w_claimed 1000
  /\ (claimed w_claimed alice = true <-> 0 < last_of w_claimed alice)
  /\ (claimed w_claimed 8%N = true <-> 0 < last_of w_claimed 8%N).
Proof.
  destruct (claimed_iff_checkpointed staking w_claimed 1000 reach_claimed)
    as [Hiff _].
  split; [exact reach_claimed|]. split; [exact (Hiff alice)|exact (Hiff 8%N)].
Defined.

(** ** Histories, one call at a time *)

Lemma run_snoc ledger txs : forall w x,
  run ledger w (txs ++ [x])
  = execute (tx_env ledger x) (tx_call x) (run ledger w txs).
Proof.
  induction txs as [|y rest IH]; intros w x; cbn; [reflexivity|apply IH].
Qed.

Lemma clock_after_snoc txs : forall clk x,
  clock_after clk (txs ++ [x]) = tx_time x.
Proof.
  induction txs as [|y rest IH]; intros clk x; cbn; [reflexivity|apply IH].
Qed.

Lemma chain_ok_snoc txs : forall clk x,
  chain_ok clk (txs ++ [x]) ->
  chain_ok clk txs /\ clock_after clk txs <= tx_time x
  /\ 0 < tx_time x <= uint256_max.
Proof.
  induction txs as [|y rest IH]; intros clk x H; cbn in *.
  - tauto.
  - destruct H as (H1 & H2 & H3). destruct (IH _ _ H3) as (I1 & I2 & I3).
    tauto.
Qed.

(** Induction over the public calls that lead to a world. *)
Lemma reachable_induction ledger (P : world -> Z -> Prop) :
  P genesis 0 ->
  (forall w t sender now c,
     reachable ledger w t -> P w t ->
     t <= now -> 0 < now <= uint256_max ->
     P (execute (Env ledger sender now) c w) now) ->
  forall w t, reachable ledger w t -> P w t.
Proof.
  intros H0 Hstep w t (txs & Hok & <- & <-).
  induction txs as [|x txs IH] using rev_ind.
  - exact H0.
  - apply chain_ok_snoc in Hok as (Hok & Hclk & Hb).
    rewrite run_snoc, clock_after_snoc. destruct x as [sender now c].
    apply (Hstep (run ledger genesis txs) (clock_after 0 txs));
      [|apply IH; assumption|assumption|assumption].
    exists txs. auto.
Qed.

(** What a committed call leaves for its sender and for the others. *)
Lemma committed_self ledger e c w w' t :
  inv ledger w t -> committed e w c w' ->
  claimed w' (msg_sender e) = true
  /\ last_of w' (msg_sender e) = block_timestamp e.
Proof.
  intros Hi Hcom. pose proof (inv_fresh _ _ _ Hi) as Hf.
  pose proof (handles_fresh_settle e (msg_sender e) w Hf) as Hf1.
  destruct Hcom as [Hc|x p Hc Hp|x p Hc Hp|Hc].
  - pose proof (view_claim_self e w) as Hv.
    view_eqs Hv HL HS HP HT HC. auto.
  - pose proof (view_stake_self (FHE.ext_plain x) e _ Hf1) as Hv.
    view_eqs Hv HL HS HP HT HC. rewrite claimed_settle in HC.
    split; congruence.
  - pose proof (view_unstake_self (FHE.ext_plain x) e _ Hf1) as Hv.
    view_eqs Hv HL HS HP HT HC. rewrite claimed_settle in HC.
    split; congruence.
  - pose proof (view_interest_self (settle_days e w (msg_sender e)) e _ Hf1)
      as Hv.
    view_eqs Hv HL HS HP HT HC. rewrite claimed_settle in HC.
    split; congruence.
Qed.

Lemma claimed_execute ledger e c w t u :
  inv ledger w t ->
  t <= block_timestamp e <= uint256_max ->
  claimed w u = true -> claimed (execute e c w) u = true.
Proof.
  intros Hi Ht Hc.
  destruct (execute_cases ledger e c w t Hi Ht) as [[_ ->]|[_ Hcom]];
    [assumption|].
  destruct (decide (u = msg_sender e)) as [->|Hu].
  - apply (committed_self ledger e c w _ t Hi Hcom).
  - pose proof (view_committed_other ledger e c w _ t u Hi Hcom Hu) as Hv.
    destruct (view_inj _ _ _ _ _ _ _ Hv) as (_ & _ & _ & _ & HC).
    congruence.
Qed.

(** * Decrypt-grants *)

Lemma grants_sub_one (a u : address) (s : gset address) :
  {[u]} ∪ ({[a]} ∪ s) ⊆ s ∪ {[a; u]}.
Proof.
  intros x. rewrite !elem_of_union, !elem_of_singleton. tauto.
Qed.

Lemma grants_sub_two (a u : address) (s : gset address) :
  {[u]} ∪ ({[a]} ∪ ({[u]} ∪ ({[a]} ∪ s))) ⊆ s ∪ {[a; u]}.
Proof.
  intros x. rewrite !elem_of_union, !elem_of_singleton. tauto.
Qed.

Lemma grants_sub_refl (a u : address) (s : gset address) : s ⊆ s ∪ {[a; u]}.
Proof. apply union_subseteq_l. Qed.

Lemma grants_sub_trans (a u : address) (s1 s2 s3 : gset address) :
  s1 ⊆ s2 ∪ {[a; u]} -> s2 ⊆ s3 ∪ {[a; u]} -> s1 ⊆ s3 ∪ {[a; u]}.
Proof.
  intros H1 H2 x Hx. apply H1 in Hx. apply elem_of_union in Hx as [Hx|Hx].
  - now apply H2.
  - now apply elem_of_union_r.
Qed.

Ltac split_handle :=
  repeat (rewrite lookup_insert; case_decide; [subst|]);
  cbn [from_option id]; try congruence;
  auto using grants_sub_one, grants_sub_two, grants_sub_refl.

Lemma grants_accrue e u w h :
  FHE.grants_of (fhe (accrue_world e u w)) h
  ⊆ FHE.grants_of (fhe w) h ∪ {[this e; u]}.
Proof. unfold accrue_world. obs. lookups. split_handle. Qed.

Lemma grants_settle e u w h :
  FHE.grants_of (fhe (settle_world e u w)) h
  ⊆ FHE.grants_of (fhe w) h ∪ {[this e; u]}.
Proof.
  unfold settle_world. destruct (last_of w u =? 0).
  - apply grants_sub_refl.
  - destruct (elapsed_days e w u =? 0);
      [apply grants_sub_refl|apply grants_accrue].
Qed.

Lemma grants_claim e w h :
  FHE.grants_of (fhe (claim_world e w)) h
  ⊆ FHE.grants_of (fhe w) h ∪ {[this e; msg_sender e]}.
Proof. unfold claim_world. obs. lookups. split_handle. Qed.

Lemma grants_stake a e w h :
  FHE.grants_of (fhe (stake_body a e w)) h
  ⊆ FHE.grants_of (fhe w) h ∪ {[this e; msg_sender e]}.
Proof. unfold stake_body. obs. lookups. split_handle. Qed.

Lemma grants_unstake a e w h :
  FHE.grants_of (fhe (unstake_body a e w)) h
  ⊆ FHE.grants_of (fhe w) h ∪ {[this e; msg_sender e]}.
Proof. unfold unstake_body. obs. lookups. split_handle. Qed.

Lemma grants_interest d e w h :
  FHE.grants_of (fhe (interest_body d e w)) h
  ⊆ FHE.grants_of (fhe w) h ∪ {[this e; msg_sender e]}.
Proof. unfold interest_body. obs. lookups. split_handle. Qed.

Lemma grants_committed e c w w' h :
  committed e w c w' ->
  FHE.grants_of (fhe w') h
  ⊆ FHE.grants_of (fhe w) h ∪ {[this e; msg_sender e]}.
Proof.
  intros Hcom. destruct Hcom.
  - apply grants_claim.
  - eapply grants_sub_trans; [apply grants_stake|apply grants_settle].
  - eapply grants_sub_trans; [apply grants_unstake|apply grants_settle].
  - eapply grants_sub_trans; [apply grants_interest|apply grants_settle].
Qed.

Lemma grants_kept_one (a u : address) (s : gset address) :
  s ⊆ {[u]} ∪ ({[a]} ∪ s).
Proof. intros x. rewrite !elem_of_union. tauto. Qed.

Lemma grants_kept_two (a u : address) (s : gset address) :
  s ⊆ {[u]} ∪ ({[a]} ∪ ({[u]} ∪ ({[a]} ∪ s))).
Proof. intros x. rewrite !elem_of_union. tauto. Qed.

Ltac keep_handle :=
  repeat (rewrite lookup_insert; case_decide; [subst|]);
  cbn [from_option id]; try congruence;
  auto using grants_kept_one, grants_kept_two.

(** No statement of the contract takes a grant away. *)
Lemma grants_kept_accrue e u w h :
  FHE.grants_of (fhe w) h ⊆ FHE.grants_of (fhe (accrue_world e u w)) h.
Proof. unfold accrue_world. obs. lookups. keep_handle. Qed.

Lemma grants_kept_settle e u w h :
  FHE.grants_of (fhe w) h ⊆ FHE.grants_of (fhe (settle_world e u w)) h.
Proof.
  unfold settle_world. destruct (last_of w u =? 0); [reflexivity|].
  destruct (elapsed_days e w u =? 0); [reflexivity|apply grants_kept_accrue].
Qed.

Lemma grants_kept_claim e w h :
  FHE.grants_of (fhe w) h ⊆ FHE.grants_of (fhe (claim_world e w)) h.
Proof. unfold claim_world. obs. lookups. keep_handle. Qed.

Lemma grants_kept_stake a e w h :
  FHE.grants_of (fhe w) h ⊆ FHE.grants_of (fhe (stake_body a e w)) h.
Proof. unfold stake_body. obs. lookups. keep_handle. Qed.

Lemma grants_kept_unstake a e w h :
  FHE.grants_of (fhe w) h ⊆ FHE.grants_of (fhe (unstake_body a e w)) h.
Proof. unfold unstake_body. obs. lookups. keep_handle. Qed.

Lemma grants_kept_interest d e w h :
  FHE.grants_of (fhe w) h ⊆ FHE.grants_of (fhe (interest_body d e w)) h.
Proof. unfold interest_body. obs. lookups. keep_handle. Qed.

Lemma grants_kept_committed e c w w' h :
  committed e w c w' ->
  FHE.grants_of (fhe w) h ⊆ FHE.grants_of (fhe w') h.
Proof.
  intros Hcom. destruct Hcom.
  - apply grants_kept_claim.
  - etransitivity; [apply grants_kept_settle|apply grants_kept_stake].
  - etransitivity; [apply grants_kept_settle|apply grants_kept_unstake].
  - etransitivity; [apply grants_kept_settle|apply grants_kept_interest].
Qed.

(** Whoever holds a grant is the ledger or has claimed: a call grants the
    ledger and its own sender, and only a call that succeeds grants at
    all. *)
Lemma grantees_have_claimed ledger w t :
  reachable ledger w t ->
  forall h who,
    who ∈ FHE.grants_of (fhe w) h -> who = ledger \/ claimed w who = true.
Proof.
  intros Hr. revert w t Hr.
  apply (reachable_induction ledger
           (fun w _ =>
              forall h who,
                who ∈ FHE.grants_of (fhe w) h ->
                who = ledger \/ claimed w who = true)).
  - intros h who Hin. unfold FHE.grants_of in Hin. cbn in Hin.
    rewrite lookup_empty in Hin. cbn in Hin. now apply elem_of_empty in Hin.
  - intros w t sender now c Hr IH Ht Hb h who Hin.
    pose proof (reachable_inv _ _ _ Hr) as Hi.
    destruct (execute_cases ledger (Env ledger sender now) c w t Hi
                ltac:(cbn; lia)) as [[_ Heq]|[_ Hcom]].
    + rewrite Heq in *. now apply (IH h).
    + apply (grants_committed _ _ _ _ h Hcom) in Hin.
      cbn [this msg_sender] in Hin.
      rewrite !elem_of_union, !elem_of_singleton in Hin.
      destruct Hin as [Hin|[->| ->]].
      * destruct (IH h who Hin) as [->|Hc]; [now left|right].
        apply (claimed_execute ledger _ c w t who Hi); [cbn; lia|exact Hc].
      * now left.
      * right. apply (committed_self ledger _ c w _ t Hi Hcom).
Qed.

(** C9, as the code has it.  In every reachable world, each of the three
    handles held for an account that has claimed carries decrypt-grants for
    the ledger and for the owner, so the owner decrypts it.  The grants are
    in place when the operation that wrote the handle completes: in the
    code the storage write comes first and [_allowValue] follows it.  A
    call only ever adds the ledger and its own sender to the grants of a
    handle and takes none away, so whoever is granted on any handle is the
    ledger or an account that has claimed.  The number of principals
    granted on a handle is not part of the statement: it depends on
    whether the library hands the same handle to two accounts. *)
Theorem grants_ledger_and_owner ledger w t :
  reachable ledger w t ->
  (forall u h, claimed w u = true ->
     h ∈ [liquid_of w u; staked_of w u; pending_of w u] ->
     ledger ∈ FHE.grants_of (fhe w) h
     /\ u ∈ FHE.grants_of (fhe w) h
     /\ FHE.userDecrypt (fhe w) u h = Some (FHE.value_of (fhe w) h))
  /\ (forall h who,
        who ∈ FHE.grants_of (fhe w) h ->
        who = ledger \/ claimed w who = true)
  /\ (forall sender now c h,
        t <= now <= uint256_max ->
        FHE.grants_of (fhe w) h
        ⊆ FHE.grants_of (fhe (execute (Env ledger sender now) c w)) h
        /\ FHE.grants_of (fhe (execute (Env ledger sender now) c w)) h
           ⊆ FHE.grants_of (fhe w) h ∪ {[ledger; sender]}).
Proof.
  intros Hr. pose proof (reachable_inv _ _ _ Hr) as Hi. split_and!.
  - intros u h Hc Hin.
    destruct (inv_grants _ _ _ Hi u Hc) as (GL & GS & GP).
    assert (FHE.grants_of (fhe w) h = {[ledger; u]}) as G.
    { rewrite !elem_of_cons, elem_of_nil in Hin.
      destruct Hin as [->|[->|[->|[]]]]; assumption. }
    assert (u ∈ FHE.grants_of (fhe w) h) as Hu
      by (rewrite G; apply elem_of_union_r, elem_of_singleton; reflexivity).
    split_and!; [|exact Hu|].
    + rewrite G. apply elem_of_union_l, elem_of_singleton. reflexivity.
    + unfold FHE.userDecrypt. now rewrite decide_True by exact Hu.
  - apply (grantees_have_claimed ledger w t Hr).
  - intros sender now c h Ht.
    destruct (execute_cases ledger (Env ledger sender now) c w t Hi Ht)
      as [[_ ->]|[_ Hcom]].
    + split; [reflexivity|apply grants_sub_refl].
    + split; [apply (grants_kept_committed _ _ _ _ h Hcom)|].
      apply (grants_committed _ _ _ _ h Hcom).
Qed.

Lemma grants_ledger_and_owner_witness :
  reachable staking w_staked500 1000
  /\ claimed w_staked500 alice = true
  /\ staking ∈ FHE.grants_of (fhe w_staked500) (liquid_of w_staked500 alice)
  /\ FHE.userDecrypt (fhe w_staked500) alice (liquid_of w_staked500 alice)
     = Some 500.
Proof.
  assert (claimed w_staked500 alice = true) as Hc by (vm_compute; reflexivity).
  destruct (grants_ledger_and_owner staking w_staked500 1000 reach_staked500)
    as (Hg & _ & _).
  destruct (Hg alice (liquid_of w_staked500 alice) Hc
              ltac:(apply elem_of_cons; left; reflexivity))
    as (GL & _ & DL).
  split; [exact reach_staked500|]. split; [exact Hc|].
  split; [exact GL|]. rewrite DL. vm_compute. reflexivity.
Defined.

(** C9 as stated fails at the moment of storage: after lines 28-29 of
    [claimInitial] the liquid slot of the caller already holds the new handle
    while the owner has no grant on it yet, so the owner could not decrypt
    it at that point.  The grants come with the next statement. *)
Lemma grants_ledger_and_owner_counterexample :
  fst (claimInitial_store_grant alice (at_time 1000) genesis) = Ok 1%N
  /\ liquid_of (snd (claimInitial_store_grant alice (at_time 1000) genesis))
       alice = 1%N
  /\ FHE.userDecrypt
       (fhe (snd (claimInitial_store_grant alice (at_time 1000) genesis)))
       alice 1%N = None
  /\ FHE.grants_of
       (fhe (snd (claimInitial_store_grant alice (at_time 1000) genesis)))
       1%N <> {[staking; alice]}.
Proof.
  split_and!; try (vm_compute; reflexivity).
  intros Heq.
  assert (alice ∈ FHE.grants_of
            (fhe (snd (claimInitial_store_grant alice (at_time 1000) genesis)))
            1%N) as Hin.
  { rewrite Heq. apply elem_of_union_r, elem_of_singleton. reflexivity. }
  vm_compute in Hin. discriminate Hin.
Qed.

(** * The checkpoint over time *)

(** C5, as the code has it.  Over any call made at a block not older than
    the last one, no account's checkpoint decreases; it is left as it was
    by a failed call and for every account other than the sender, and a
    successful call sets the sender's checkpoint to the current time,
    whether or not interest was computed.  The accrual step on its own
    leaves the world untouched when less than a day has elapsed and
    otherwise advances the checkpoint by [elapsedDays * 86400].  A [stake]
    or [unstake] sent less than a day after the checkpoint leaves the
    pending interest as it was. *)
Theorem checkpoint_advances ledger w t sender now c :
  reachable ledger w t ->
  t <= now <= uint256_max ->
  let e := Env ledger sender now in
  let w' := execute e c w in
  (forall u, last_of w u <= last_of w' u)
  /\ (forall u, u <> sender -> last_of w' u = last_of w u)
  /\ (succeeds e c w = false -> w' = w)
  /\ (succeeds e c w = true -> last_of w' sender = now)
  /\ (forall u, last_of w u <> 0 ->
        let d := (now - last_of w u) / 86400 in
        (d = 0 -> _settleRewards u e w = (Ok 0, w))
        /\ (d <> 0 ->
            last_of (snd (_settleRewards u e w)) u = last_of w u + d * 86400))
  /\ (now - last_of w sender < 86400 ->
      (exists x p, c = Stake x p \/ c = Unstake x p) ->
      plain_pending w' sender = plain_pending w sender).
Proof.
  intros Hr Ht e w'. pose proof (reachable_inv _ _ _ Hr) as Hi.
  pose proof (inv_fresh _ _ _ Hi) as Hf.
  pose proof (inv_clock _ _ _ Hi) as Hclk.
  pose proof (handles_fresh_settle e sender w Hf) as Hf1.
  assert (forall u, u <> sender -> last_of w' u = last_of w u) as Hother.
  { intros u Hu. subst w'.
    destruct (execute_cases ledger e c w t Hi Ht) as [[_ ->]|[_ Hcom]];
      [reflexivity|].
    pose proof (view_committed_other ledger e c w _ t u Hi Hcom Hu) as Hv.
    now destruct (view_inj _ _ _ _ _ _ _ Hv) as (_ & _ & _ & HT & _). }
  assert (succeeds e c w = true -> last_of w' sender = now) as Hself.
  { intros Hs. subst w'.
    destruct (execute_cases ledger e c w t Hi Ht) as [[Hs' _]|[_ Hcom]];
      [congruence|].
    destruct Hcom.
    - pose proof (view_claim_self e w) as Hv. now view_eqs Hv HL HS HP HT HC.
    - pose proof (view_stake_self (FHE.ext_plain x) e _ Hf1) as Hv.
      now view_eqs Hv HL HS HP HT HC.
    - pose proof (view_unstake_self (FHE.ext_plain x) e _ Hf1) as Hv.
      now view_eqs Hv HL HS HP HT HC.
    - pose proof (view_interest_self (settle_days e w (msg_sender e)) e _ Hf1)
        as Hv.
      now view_eqs Hv HL HS HP HT HC. }
  assert (succeeds e c w = false -> w' = w) as Hfail.
  { intros Hs. subst w'.
    destruct (execute_cases ledger e c w t Hi Ht) as [[_ ->]|[Hs' _]];
      [reflexivity|congruence]. }
  split_and!; try assumption.
  - intros u. destruct (decide (u = sender)) as [->|Hu].
    + destruct (succeeds e c w) eqn:Hs.
      * rewrite (Hself eq_refl). specialize (Hclk sender). lia.
      * rewrite (Hfail eq_refl). lia.
    + rewrite (Hother u Hu). lia.
  - intros u Hne d.
    change ((now - last_of w u) / 86400) with (elapsed_days e w u) in d.
    specialize (Hclk u). split; intros Hd.
    + apply settle_noop_eq; [assumption|cbn; lia|assumption].
    + rewrite settle_accrue_eq by (assumption || (cbn; lia)). cbn [snd].
      pose proof (view_accrue_self e u w Hf) as Hv.
      now view_eqs Hv HL HS HP HT HC.
  - intros Hsub (x & p & Hcall). subst w'.
    destruct (execute_cases ledger e c w t Hi Ht) as [[_ ->]|[_ Hcom]];
      [reflexivity|].
    assert (claimed w sender = true ->
            plain_pending (settle_world e sender w) sender
            = plain_pending w sender) as Hsettle.
    { intros Hc. apply (inv_claimed _ _ _ Hi) in Hc as Hpos.
      pose proof (view_settle_self e sender w Hf ltac:(lia)) as Hv.
      assert (elapsed_days e w sender = 0) as H0.
      { unfold elapsed_days. cbn [block_timestamp e].
        apply Z.div_small. specialize (Hclk sender). unfold one_day. lia. }
      rewrite H0 in Hv. cbn in Hv.
      now destruct (view_inj _ _ _ _ _ _ _ (eq_sym Hv)) as (_ & _ & HP & _). }
    destruct Hcom as [Hc|x' p' Hc Hp|x' p' Hc Hp|Hc].
    + destruct Hcall; discriminate.
    + pose proof (view_stake_self (FHE.ext_plain x') e _ Hf1) as Hv.
      view_eqs Hv HL HS HP HT HC. change (msg_sender e) with sender in *.
      rewrite HP. now apply Hsettle.
    + pose proof (view_unstake_self (FHE.ext_plain x') e _ Hf1) as Hv.
      view_eqs Hv HL HS HP HT HC. change (msg_sender e) with sender in *.
      rewrite HP. now apply Hsettle.
    + destruct Hcall; discriminate.
Qed.

Lemma checkpoint_advances_witness :
  reachable staking w_claimed 1000
  /\ 1000 <= 1000 + 43200 <= uint256_max
  /\ last_of w_claimed alice
     <= last_of (execute (Env staking alice (1000 + 43200))
                   (Stake (input_of 0) (proof_of staking alice 0)) w_claimed)
          alice
  /\ plain_pending (execute (Env staking alice (1000 + 43200))
                      (Stake (input_of 0) (proof_of staking alice 0))
                      w_claimed) alice
     = plain_pending w_claimed alice.
Proof.
  assert (1000 <= 1000 + 43200 <= uint256_max) as Ht
    by (vm_compute; split; discriminate).
  destruct (checkpoint_advances staking w_claimed 1000 alice (1000 + 43200)
              (Stake (input_of 0) (proof_of staking alice 0))
              reach_claimed Ht) as (Hmono & _ & _ & _ & _ & Hsub).
  split; [exact reach_claimed|]. split; [exact Ht|].
  split; [exact (Hmono alice)|].
  apply Hsub.
  - vm_compute. reflexivity.
  - exists (input_of 0), (proof_of staking alice 0). left. reflexivity.
Defined.

(** C5 as stated fails twice.  Twelve hours after the checkpoint a
    [stake] of 0 succeeds and moves the checkpoint from 1000 to 44200.  And
    one day and five seconds after a stake of 500, a further [stake] of 0
    computes interest (5) while the checkpoint advances by 86405 seconds,
    not by a whole number of days. *)
Lemma checkpoint_advances_counterexample :
  (last_of w_claimed alice = 1000
   /\ (1000 + 43200) - last_of w_claimed alice < 86400
   /\ succeeds (at_time (1000 + 43200))
        (Stake (input_of 0) (proof_of staking alice 0)) w_claimed = true
   /\ last_of (execute (at_time (1000 + 43200))
                 (Stake (input_of 0) (proof_of staking alice 0)) w_claimed)
        alice = 1000 + 43200)
  /\ (plain_pending w_staked500 alice = 0
      /\ plain_pending
           (execute (at_time (1000 + 86400 + 5))
              (Stake (input_of 0) (proof_of staking alice 0)) w_staked500)
           alice = 5
      /\ (last_of
            (execute (at_time (1000 + 86400 + 5))
               (Stake (input_of 0) (proof_of staking alice 0)) w_staked500)
            alice
          - last_of w_staked500 alice) mod 86400 = 5).
Proof. vm_compute. split_and!; reflexivity. Qed.

(** * Further properties of the contract *)

(** The three handles an account holds. *)
Definition slots (w : world) (u : address) : euint64 * euint64 * euint64 :=
  (liquid_of w u, staked_of w u, pending_of w u).

Lemma slots_settle_other e u w v :
  v <> u -> slots (settle_world e u w) v = slots w v.
Proof.
  intros Hv. unfold settle_world, slots.
  destruct (last_of w u =? 0); [obs; reflexivity|].
  destruct (elapsed_days e w u =? 0); [reflexivity|].
  unfold accrue_world. obs. lookups. reflexivity.
Qed.

Lemma slots_claim_other e w v :
  v <> msg_sender e -> slots (claim_world e w) v = slots w v.
Proof. intros Hv. unfold claim_world, slots. obs. lookups. reflexivity. Qed.

Lemma slots_stake_other a e w v :
  v <> msg_sender e -> slots (stake_body a e w) v = slots w v.
Proof. intros Hv. unfold stake_body, slots. obs. lookups. reflexivity. Qed.

Lemma slots_unstake_other a e w v :
  v <> msg_sender e -> slots (unstake_body a e w) v = slots w v.
Proof. intros Hv. unfold unstake_body, slots. obs. lookups. reflexivity. Qed.

Lemma slots_interest_other d e w v :
  v <> msg_sender e -> slots (interest_body d e w) v = slots w v.
Proof. intros Hv. unfold interest_body, slots. obs. lookups. reflexivity. Qed.

Lemma slots_committed_other e c w w' v :
  committed e w c w' -> v <> msg_sender e -> slots w' v = slots w v.
Proof.
  intros Hcom Hv. destruct Hcom.
  - now apply slots_claim_other.
  - rewrite slots_stake_other by assumption. now apply slots_settle_other.
  - rewrite slots_unstake_other by assumption. now apply slots_settle_other.
  - rewrite slots_interest_other by assumption. now apply slots_settle_other.
Qed.

(** ** Outcomes of the public calls *)

(** X1. In every reachable world and for every block not older than the
    last one, the outcome of a public call is decided by the claim flag of
    the sender and, for [stake] and [unstake], by the input proof alone:
    the checked [uint256] arithmetic of the accrual step never panics. *)
Theorem call_outcome_table ledger w t e c :
  reachable ledger w t ->
  t <= block_timestamp e <= uint256_max ->
  fst (dispatch c e w)
  = match c with
    | ClaimInitial =>
        if claimed w (msg_sender e) then Revert ALREADY_CLAIMED else Ok tt
    | Stake x p | Unstake x p =>
        if claimed w (msg_sender e)
        then if FHE.proof_ok e x p then Ok tt else Revert InvalidProof
        else Revert CLAIM_REQUIRED
    | ClaimInterest =>
        if claimed w (msg_sender e) then Ok tt else Revert CLAIM_REQUIRED
    end.
Proof.
  intros Hr Ht. apply reachable_inv in Hr.
  pose proof (inv_fresh _ _ _ Hr) as Hf.
  pose proof (inv_clock _ _ _ Hr (msg_sender e)) as Hclk.
  assert (0 <= last_of w (msg_sender e) <= block_timestamp e) as Hle by lia.
  assert (block_timestamp e <= uint256_max) as Hmax by lia.
  destruct c as [|x p|x p|]; cbn [dispatch];
    destruct (claimed w (msg_sender e)) eqn:Hc.
  - now rewrite (claimInitial_already e w Hc).
  - now rewrite (claimInitial_eq e w Hc).
  - destruct (FHE.proof_ok e x p) eqn:Hp.
    + now rewrite (stake_eq x p e w Hc Hf Hle Hmax Hp).
    + apply (stake_bad_proof x p e w Hc Hf Hle Hmax Hp).
  - now rewrite (stake_unclaimed x p e w Hc).
  - destruct (FHE.proof_ok e x p) eqn:Hp.
    + now rewrite (unstake_eq x p e w Hc Hf Hle Hmax Hp).
    + apply (unstake_bad_proof x p e w Hc Hf Hle Hmax Hp).
  - now rewrite (unstake_unclaimed x p e w Hc).
  - now rewrite (claimInterest_eq e w Hc Hf Hle Hmax).
  - now rewrite (claimInterest_unclaimed e w Hc).
Qed.

Lemma call_outcome_table_witness :
  reachable staking w_claimed 1000
  /\ 1000 <= block_timestamp (at_time 5000) <= uint256_max
  /\ fst (dispatch (Stake (input_of 7) (proof_of staking 8%N 7))
            (at_time 5000) w_claimed)
     = Revert InvalidProof.
Proof.
  assert (1000 <= block_timestamp (at_time 5000) <= uint256_max) as Ht
    by (vm_compute; split; discriminate).
  split; [exact reach_claimed|]. split; [exact Ht|].
  rewrite (call_outcome_table staking w_claimed 1000 (at_time 5000)
             (Stake (input_of 7) (proof_of staking 8%N 7)) reach_claimed Ht).
  vm_compute. reflexivity.
Defined.

Lemma settle_panic_eq e w u :
  last_of w u <> 0 -> block_timestamp e < last_of w u ->
  _settleRewards u e w = (Revert Panic, w).
Proof.
  intros Hne Hlt. unfold _settleRewards. exec. reflexivity.
Qed.

(** X2. A block timestamp below the stored checkpoint makes the checked
    subtraction of the accrual step panic: [stake], [unstake] and
    [claimInterest] of a claimed account then revert with [Panic] before
    anything was written. *)
Theorem clock_going_back_panics e w x p :
  claimed w (msg_sender e) = true ->
  last_of w (msg_sender e) <> 0 ->
  block_timestamp e < last_of w (msg_sender e) ->
  _settleRewards (msg_sender e) e w = (Revert Panic, w)
  /\ stake x p e w = (Revert Panic, w)
  /\ unstake x p e w = (Revert Panic, w)
  /\ claimInterest e w = (Revert Panic, w).
Proof.
  intros Hc Hne Hlt.
  pose proof (settle_panic_eq e w (msg_sender e) Hne Hlt) as Hs.
  split_and!; [exact Hs|..].
  - unfold stake. do 3 step. rewrite Hc.
    apply (bind_fail _ _ _ _ _ _ Hs).
  - unfold unstake. do 3 step. rewrite Hc.
    apply (bind_fail _ _ _ _ _ _ Hs).
  - unfold claimInterest. do 3 step. rewrite Hc.
    apply (bind_fail _ _ _ _ _ _ Hs).
Qed.

Lemma clock_going_back_panics_witness :
  claimed w_claimed (msg_sender (at_time 999)) = true
  /\ last_of w_claimed (msg_sender (at_time 999)) <> 0
  /\ block_timestamp (at_time 999) < last_of w_claimed (msg_sender (at_time 999))
  /\ claimInterest (at_time 999) w_claimed = (Revert Panic, w_claimed).
Proof.
  assert (claimed w_claimed (msg_sender (at_time 999)) = true) as Hc
    by (vm_compute; reflexivity).
  assert (last_of w_claimed (msg_sender (at_time 999)) <> 0) as Hne
    by (vm_compute; discriminate).
  assert (block_timestamp (at_time 999)
          < last_of w_claimed (msg_sender (at_time 999))) as Hlt
    by (vm_compute; reflexivity).
  destruct (clock_going_back_panics (at_time 999) w_claimed (input_of 1)
              (proof_of staking alice 1) Hc Hne Hlt) as (_ & _ & _ & H).
  split; [exact Hc|]. split; [exact Hne|]. split; [exact Hlt|exact H].
Defined.

Lemma stake_bad_proof_eq x p e w :
  claimed w (msg_sender e) = true ->
  handles_fresh w ->
  0 <= last_of w (msg_sender e) <= block_timestamp e ->
  block_timestamp e <= uint256_max ->
  FHE.proof_ok e x p = false ->
  stake x p e w = (Revert InvalidProof, snd (_settleRewards (msg_sender e) e w))
  /\ unstake x p e w
     = (Revert InvalidProof, snd (_settleRewards (msg_sender e) e w)).
Proof.
  intros Hc Hf Hle Hmax Hproof.
  pose proof (settle_eq e w _ Hf Hle Hmax) as Hs. rewrite Hs. cbn [snd].
  split.
  - unfold stake. do 3 step. rewrite Hc.
    rewrite (bind_eval _ _ _ _ _ _ Hs). step. now rewrite Hproof.
  - unfold unstake. do 3 step. rewrite Hc.
    rewrite (bind_eval _ _ _ _ _ _ Hs). step. now rewrite Hproof.
Qed.

(** X3. The input proof is checked after the accrual step: a [stake] or
    [unstake] of a claimed account with a proof that does not match fails
    with [InvalidProof] in the world the accrual step has left, and the
    revert then discards that accrual too: the transaction changes
    nothing. *)
Theorem invalid_proof_reverts_after_accrual ledger w t e x p :
  reachable ledger w t ->
  claimed w (msg_sender e) = true ->
  t <= block_timestamp e <= uint256_max ->
  FHE.proof_ok e x p = false ->
  stake x p e w = (Revert InvalidProof, snd (_settleRewards (msg_sender e) e w))
  /\ unstake x p e w
     = (Revert InvalidProof, snd (_settleRewards (msg_sender e) e w))
  /\ execute e (Stake x p) w = w
  /\ execute e (Unstake x p) w = w.
Proof.
  intros Hr Hc Ht Hp. apply reachable_inv in Hr.
  pose proof (inv_fresh _ _ _ Hr) as Hf.
  pose proof (inv_clock _ _ _ Hr (msg_sender e)) as Hclk.
  destruct (stake_bad_proof_eq x p e w Hc Hf ltac:(lia) ltac:(lia) Hp)
    as (Hs & Hu).
  unfold execute. cbn [dispatch]. rewrite Hs, Hu. auto.
Qed.

Lemma invalid_proof_reverts_after_accrual_witness :
  reachable staking w_staked500 1000
  /\ claimed w_staked500 (msg_sender (at_time (1000 + 86400))) = true
  /\ FHE.proof_ok (at_time (1000 + 86400)) (input_of 7)
       (proof_of staking 8%N 7) = false
  /\ execute (at_time (1000 + 86400))
       (Stake (input_of 7) (proof_of staking 8%N 7)) w_staked500
     = w_staked500
  /\ plain_pending
       (snd (stake (input_of 7) (proof_of staking 8%N 7)
               (at_time (1000 + 86400)) w_staked500)) alice = 5.
Proof.
  assert (claimed w_staked500 (msg_sender (at_time (1000 + 86400))) = true)
    as Hc by (vm_compute; reflexivity).
  assert (1000 <= block_timestamp (at_time (1000 + 86400)) <= uint256_max)
    as Ht by (vm_compute; split; discriminate).
  assert (FHE.proof_ok (at_time (1000 + 86400)) (input_of 7)
            (proof_of staking 8%N 7) = false) as Hp
    by (vm_compute; reflexivity).
  destruct (invalid_proof_reverts_after_accrual staking w_staked500 1000
              (at_time (1000 + 86400)) (input_of 7) (proof_of staking 8%N 7)
              reach_staked500 Hc Ht Hp) as (Hs & _ & Hx & _).
  split; [exact reach_staked500|]. split; [exact Hc|]. split; [exact Hp|].
  split; [exact Hx|]. rewrite Hs. vm_compute. reflexivity.
Defined.

(** ** Accounts do not interfere *)

(** X4. A call never touches an account other than its sender: for every
    other address [getAccountState] returns the same handles, checkpoint
    and flag as before the call, and the plaintexts behind the handles are
    the same. *)
Theorem other_accounts_untouched ledger w t sender now c v e0 :
  reachable ledger w t ->
  t <= now <= uint256_max ->
  v <> sender ->
  let w' := execute (Env ledger sender now) c w in
  fst (getAccountState v e0 w') = fst (getAccountState v e0 w)
  /\ view w' v = view w v.
Proof.
  intros Hr Ht Hv w'. apply reachable_inv in Hr. subst w'.
  destruct (execute_cases ledger (Env ledger sender now) c w t Hr Ht)
    as [[_ ->]|[_ Hcom]]; [auto|].
  pose proof (view_committed_other ledger _ c w _ t v Hr Hcom Hv) as Hview.
  pose proof (slots_committed_other _ c w _ v Hcom Hv) as Hslots.
  split; [|exact Hview].
  destruct (view_inj _ _ _ _ _ _ _ Hview) as (_ & _ & _ & HT & HC).
  unfold slots in Hslots. injection Hslots as HL HS HP.
  unfold getAccountState, gets. cbn [fst]. now rewrite HL, HS, HP, HT, HC.
Qed.

Lemma other_accounts_untouched_witness :
  reachable staking w_staked500 1000
  /\ 1000 <= 2000 <= uint256_max
  /\ alice <> 8%N
  /\ view (execute (Env staking 8%N 2000) ClaimInitial w_staked500) alice
     = view w_staked500 alice.
Proof.
  assert (1000 <= 2000 <= uint256_max) as Ht
    by (vm_compute; split; discriminate).
  assert (alice <> 8%N) as Hv by discriminate.
  destruct (other_accounts_untouched staking w_staked500 1000 8%N 2000
              ClaimInitial alice (at_time 0) reach_staked500 Ht Hv)
    as (_ & H).
  split; [exact reach_staked500|]. split; [exact Ht|]. split; [exact Hv|].
  exact H.
Defined.

Lemma reachable_run ledger txs : forall w t,
  reachable ledger w t -> chain_ok t txs ->
  reachable ledger (run ledger w txs) (clock_after t txs).
Proof.
  induction txs as [|x rest IH]; intros w t Hr Hok; cbn in *; [assumption|].
  destruct Hok as (Ht & Hb & Hrest). apply IH; [|assumption].
  apply (reachable_step ledger w t (tx_sender x) (tx_time x) (tx_call x));
    assumption.
Qed.

(** X5. Claimed is terminal: once an account has claimed, no later
    history of calls, by anyone, makes [hasUserClaimed] false again. *)
Theorem claim_is_permanent ledger w t txs u e0 :
  reachable ledger w t ->
  chain_ok t txs ->
  claimed w u = true ->
  hasUserClaimed u e0 (run ledger w txs) = (Ok true, run ledger w txs).
Proof.
  intros Hr Hok Hc. unfold hasUserClaimed, gets. f_equal. f_equal.
  revert w t Hr Hok Hc.
  induction txs as [|x rest IH]; intros w t Hr Hok Hc; cbn in *;
    [assumption|].
  destruct Hok as (Ht & Hb & Hrest).
  apply (IH _ (tx_time x)); [|assumption|].
  - apply (reachable_step ledger w t (tx_sender x) (tx_time x) (tx_call x));
      assumption.
  - apply (claimed_execute ledger (tx_env ledger x) (tx_call x) w t);
      [now apply reachable_inv|cbn; lia|assumption].
Qed.

Lemma claim_is_permanent_witness :
  reachable staking w_claimed 1000
  /\ chain_ok 1000
       [Tx alice 2000 ClaimInitial; Tx 8%N 3000 ClaimInitial;
        Tx alice 4000 ClaimInterest]
  /\ claimed w_claimed alice = true
  /\ fst (hasUserClaimed alice (at_time 0)
            (run staking w_claimed
               [Tx alice 2000 ClaimInitial; Tx 8%N 3000 ClaimInitial;
                Tx alice 4000 ClaimInterest]))
     = Ok true.
Proof.
  assert (chain_ok 1000
            [Tx alice 2000 ClaimInitial; Tx 8%N 3000 ClaimInitial;
             Tx alice 4000 ClaimInterest]) as Hok
    by (cbn; unfold uint256_max; lia).
  assert (claimed w_claimed alice = true) as Hc by (vm_compute; reflexivity).
  split; [exact reach_claimed|]. split; [exact Hok|]. split; [exact Hc|].
  rewrite (claim_is_permanent staking w_claimed 1000 _ alice (at_time 0)
             reach_claimed Hok Hc).
  reflexivity.
Defined.

(** An account that has not claimed holds no handle. *)
Definition blank (w : world) : Prop :=
  forall u, claimed w u = false -> slots w u = (0%N, 0%N, 0%N).

Lemma blank_reachable ledger w t : reachable ledger w t -> blank w.
Proof.
  revert w t. apply (reachable_induction ledger (fun w _ => blank w)).
  - intros u _. unfold slots, genesis. obs. now rewrite !lookup_empty.
  - intros w t sender now c Hr IH Ht Hb u Hu.
    pose proof (reachable_inv _ _ _ Hr) as Hi.
    destruct (execute_cases ledger (Env ledger sender now) c w t Hi
                ltac:(cbn; lia)) as [[_ Heq]|[_ Hcom]].
    + rewrite Heq in *. now apply IH.
    + destruct (decide (u = sender)) as [->|Hne].
      * destruct (committed_self ledger _ c w _ t Hi Hcom) as [Hc _].
        cbn [msg_sender] in Hc. congruence.
      * pose proof (view_committed_other ledger _ c w _ t u Hi Hcom Hne)
          as Hv.
        destruct (view_inj _ _ _ _ _ _ _ Hv) as (_ & _ & _ & _ & HC).
        rewrite (slots_committed_other _ c w _ u Hcom Hne).
        apply IH. congruence.
Qed.

(** X6. In every reachable world an account that has not claimed is
    blank: [getAccountState] returns three uninitialised (zero) handles, a
    zero checkpoint and [false], and [getLastAccrualTimestamp] returns 0;
    neither function changes the world. *)
Theorem unclaimed_account_is_blank ledger w t u e0 :
  reachable ledger w t ->
  claimed w u = false ->
  getAccountState u e0 w = (Ok (0%N, 0%N, 0%N, 0, false), w)
  /\ getLastAccrualTimestamp u e0 w = (Ok 0, w).
Proof.
  intros Hr Hc. pose proof (blank_reachable ledger w t Hr u Hc) as Hs.
  apply reachable_inv in Hr.
  pose proof (inv_clock _ _ _ Hr u) as Hclk.
  pose proof (inv_claimed _ _ _ Hr u) as Hiff.
  assert (last_of w u = 0) as H0.
  { destruct (Z.eq_dec (last_of w u) 0) as [|Hne]; [assumption|].
    assert (claimed w u = true) by (apply Hiff; lia). congruence. }
  unfold slots in Hs. injection Hs as HL HS HP.
  unfold getAccountState, getLastAccrualTimestamp, gets.
  now rewrite HL, HS, HP, H0, Hc.
Qed.

Lemma unclaimed_account_is_blank_witness :
  reachable staking w_staked500 1000
  /\ claimed w_staked500 8%N = false
  /\ getAccountState 8%N (at_time 0) w_staked500
     = (Ok (0%N, 0%N, 0%N, 0, false), w_staked500).
Proof.
  assert (claimed w_staked500 8%N = false) as Hc by (vm_compute; reflexivity).
  destruct (unclaimed_account_is_blank staking w_staked500 1000 8%N (at_time 0)
              reach_staked500 Hc) as (H & _).
  split; [exact reach_staked500|]. split; [exact Hc|exact H].
Defined.

Definition w_two_accounts : world :=
  execute (Env staking 8%N 2000) ClaimInitial w_staked500.

Lemma reach_two_accounts : reachable staking w_two_accounts 2000.
Proof.
  apply (reachable_step staking w_staked500 1000 8%N 2000 ClaimInitial);
    [apply reach_staked500 | lia | unfold uint256_max; lia].
Qed.

(** ** The event log *)

Definition event_of (e : env) (c : call) (w : world) : event :=
  match c with
  | ClaimInitial => TokensClaimed (msg_sender e) INITIAL_GRANT
  | Stake _ _ => TokensStaked (msg_sender e)
  | Unstake _ _ => TokensUnstaked (msg_sender e)
  | ClaimInterest =>
      InterestClaimed (msg_sender e) (settle_days e w (msg_sender e))
  end.

Lemma logs_committed e c w w' :
  committed e w c w' -> logs w' = logs w ++ [event_of e c w].
Proof.
  intros Hcom. destruct Hcom; cbn [event_of].
  - unfold claim_world. obs. reflexivity.
  - unfold stake_body at 1. obs. now rewrite logs_settle.
  - unfold unstake_body at 1. obs. now rewrite logs_settle.
  - unfold interest_body at 1. obs. now rewrite logs_settle.
Qed.

(** X8. A successful call appends exactly one event to the log, of the
    kind of the call and naming its sender: [TokensClaimed] carries the
    public constant 1000, [InterestClaimed] the elapsed whole days, and the
    two staking events carry no amount at all.  A failed call logs
    nothing. *)
Theorem one_event_per_successful_call ledger w t e c :
  reachable ledger w t ->
  t <= block_timestamp e <= uint256_max ->
  logs (execute e c w)
  = logs w
    ++ (if succeeds e c w
        then [match c with
              | ClaimInitial => TokensClaimed (msg_sender e) 1000
              | Stake _ _ => TokensStaked (msg_sender e)
              | Unstake _ _ => TokensUnstaked (msg_sender e)
              | ClaimInterest =>
                  InterestClaimed (msg_sender e)
                    ((block_timestamp e - last_of w (msg_sender e)) / 86400)
              end]
        else []).
Proof.
  intros Hr Ht. apply reachable_inv in Hr.
  destruct (execute_cases ledger e c w t Hr Ht) as [[-> ->]|[-> Hcom]].
  - now rewrite app_nil_r.
  - rewrite (logs_committed e c w _ Hcom). f_equal. f_equal.
    destruct Hcom as [Hc|x p Hc Hp|x p Hc Hp|Hc]; cbn [event_of];
      try reflexivity.
    apply (inv_claimed _ _ _ Hr) in Hc. unfold settle_days.
    destruct (Z.eqb_spec (last_of w (msg_sender e)) 0); [lia|reflexivity].
Qed.

Lemma one_event_per_successful_call_witness :
  reachable staking w_staked500 1000
  /\ 1000 <= block_timestamp (at_time (1000 + 3 * 86400)) <= uint256_max
  /\ logs (execute (at_time (1000 + 3 * 86400)) ClaimInterest w_staked500)
     = logs w_staked500 ++ [InterestClaimed alice 3].
Proof.
  assert (1000 <= block_timestamp (at_time (1000 + 3 * 86400)) <= uint256_max)
    as Ht by (vm_compute; split; discriminate).
  split; [exact reach_staked500|]. split; [exact Ht|].
  rewrite (one_event_per_successful_call staking w_staked500 1000
             (at_time (1000 + 3 * 86400)) ClaimInterest reach_staked500 Ht).
  apply (f_equal (app (logs w_staked500))). vm_compute. reflexivity.
Defined.

Definition event_user (ev : event) : address :=
  match ev with
  | TokensClaimed u _ | TokensStaked u | TokensUnstaked u
  | InterestClaimed u _ => u
  end.

Definition is_claim_of (u : address) (ev : event) : bool :=
  match ev with
  | TokensClaimed v _ => (v =? u)%N
  | _ => false
  end.

Definition count_claims (u : address) (l : list event) : nat :=
  length (List.filter (is_claim_of u) l).

Lemma count_claims_snoc u l ev :
  count_claims u (l ++ [ev])
  = (count_claims u l + if is_claim_of u ev then 1 else 0)%nat.
Proof.
  unfold count_claims. rewrite List.filter_app, List.length_app. cbn.
  now destruct (is_claim_of u ev).
Qed.

Definition log_sound (w : world) : Prop :=
  (forall u, count_claims u (logs w) = if claimed w u then 1%nat else 0%nat)
  /\ (forall ev, ev ∈ logs w -> claimed w (event_user ev) = true)
  /\ (forall u amount, TokensClaimed u amount ∈ logs w -> amount = 1000).

Lemma log_sound_reachable ledger w t : reachable ledger w t -> log_sound w.
Proof.
  revert w t. apply (reachable_induction ledger (fun w _ => log_sound w)).
  - split_and!.
    + intros u. reflexivity.
    + intros ev Hin. cbn in Hin. now apply elem_of_nil in Hin.
    + intros u a Hin. cbn in Hin. now apply elem_of_nil in Hin.
  - intros w t sender now c Hr (IH1 & IH2 & IH3) Ht Hb.
    pose proof (reachable_inv _ _ _ Hr) as Hi.
    assert (t <= block_timestamp (Env ledger sender now) <= uint256_max)
      as Ht' by (cbn; lia).
    destruct (execute_cases ledger (Env ledger sender now) c w t Hi Ht')
      as [[_ Heq]|[_ Hcom]].
    { rewrite Heq. now split_and!. }
    pose proof (logs_committed _ c w _ Hcom) as Hlog.
    destruct (committed_self ledger _ c w _ t Hi Hcom) as [Hself _].
    cbn [msg_sender] in Hself.
    split_and!.
    + intros u. rewrite Hlog, count_claims_snoc, IH1.
      destruct (decide (u = sender)) as [->|Hne].
      * rewrite Hself. destruct Hcom as [Hc|x p Hc Hp|x p Hc Hp|Hc];
          cbn [event_of is_claim_of msg_sender] in *; rewrite Hc;
          rewrite ?N.eqb_refl; reflexivity.
      * pose proof (view_committed_other ledger _ c w _ t u Hi Hcom Hne)
          as Hv.
        destruct (view_inj _ _ _ _ _ _ _ Hv) as (_ & _ & _ & _ & HC).
        rewrite HC.
        assert (is_claim_of u (event_of (Env ledger sender now) c w) = false)
          as ->.
        { destruct c; cbn; try reflexivity.
          apply N.eqb_neq. congruence. }
        lia.
    + intros ev Hin. rewrite Hlog in Hin.
      apply elem_of_app in Hin as [Hin|Hin].
      * apply (claimed_execute ledger _ c w t _ Hi Ht'). now apply IH2.
      * apply list_elem_of_singleton in Hin. subst ev.
        destruct c; exact Hself.
    + intros u a Hin. rewrite Hlog in Hin.
      apply elem_of_app in Hin as [Hin|Hin]; [now apply (IH3 u)|].
      apply list_elem_of_singleton in Hin.
      destruct c; cbn in Hin; try discriminate.
      injection Hin as _ Ha. rewrite Ha. reflexivity.
Qed.

(** X9. The log agrees with the claim flags: in every reachable world the
    log holds exactly one [TokensClaimed] event for each account that has
    claimed and none for the others; every [TokensClaimed] carries the
    amount 1000; and every logged event names an account that has
    claimed. *)
Theorem log_matches_claims ledger w t :
  reachable ledger w t ->
  (forall u, count_claims u (logs w) = if claimed w u then 1%nat else 0%nat)
  /\ (forall ev, ev ∈ logs w -> claimed w (event_user ev) = true)
  /\ (forall u amount, TokensClaimed u amount ∈ logs w -> amount = 1000).
Proof. apply log_sound_reachable. Qed.

Lemma log_matches_claims_witness :
  reachable staking w_two_accounts 2000
  /\ count_claims alice (logs w_two_accounts) = 1%nat
  /\ count_claims 9%N (logs w_two_accounts) = 0%nat.
Proof.
  destruct (log_matches_claims staking w_two_accounts 2000 reach_two_accounts)
    as (Hcount & _).
  split; [exact reach_two_accounts|]. split.
  - rewrite (Hcount alice). vm_compute. reflexivity.
  - rewrite (Hcount 9%N). vm_compute. reflexivity.
Defined.

(** ** Bounds *)

Lemma clock_bounded ledger w t :
  reachable ledger w t -> 0 <= t <= uint256_max.
Proof.
  revert w t.
  apply (reachable_induction ledger (fun _ t => 0 <= t <= uint256_max)).
  - unfold uint256_max. lia.
  - intros. lia.
Qed.

(** X10. Everything the contract stores stays in range: in every
    reachable world the three balances of any account decrypt to values in
    [0, 2^64), and its checkpoint lies between 0 and the time of the last
    block, itself a [uint256]. *)
Theorem stored_values_in_range ledger w t u :
  reachable ledger w t ->
  0 <= plain_liquid w u < 2 ^ 64
  /\ 0 <= plain_staked w u < 2 ^ 64
  /\ 0 <= plain_pending w u < 2 ^ 64
  /\ 0 <= last_of w u <= t
  /\ t <= 2 ^ 256 - 1.
Proof.
  intros Hr. pose proof (clock_bounded ledger w t Hr) as Hclk.
  apply reachable_inv in Hr. change (2 ^ 64) with two64.
  change (2 ^ 256 - 1) with uint256_max.
  split_and!; try apply (inv_range _ _ _ Hr); try apply (inv_clock _ _ _ Hr);
    lia.
Qed.

Lemma stored_values_in_range_witness :
  reachable staking w_staked_huge 1000
  /\ 0 <= plain_liquid w_staked_huge alice < 2 ^ 64.
Proof.
  split; [exact reach_staked_huge|].
  apply (stored_values_in_range staking w_staked_huge 1000 alice
           reach_staked_huge).
Defined.

(** ** How the operations compose *)

Lemma stake_step ledger w t u now a :
  reachable ledger w t ->
  claimed w u = true ->
  t <= now <= uint256_max ->
  0 <= a < two64 ->
  exists w',
    stake (input_of a) (proof_of ledger u a) (Env ledger u now) w = (Ok tt, w')
    /\ reachable ledger w' now
    /\ view w' u
       = Account ((plain_liquid w u - a) mod two64)
           ((plain_staked w u + a) mod two64)
           (plain_pending (settle_world (Env ledger u now) u w) u) now true.
Proof.
  intros Hr Hc Ht Ha.
  pose proof (reachable_inv _ _ _ Hr) as Hi.
  pose proof (inv_clock _ _ _ Hi u) as Hclk.
  apply (inv_claimed _ _ _ Hi) in Hc as Hpos.
  destruct (stake_effect ledger w t (Env ledger u now) (input_of a)
              (proof_of ledger u a) Hr eq_refl Hc ltac:(cbn; lia)
              (proof_of_ok ledger u now a Ha)) as (w' & Heq & Hv).
  exists w'. split_and!; [exact Heq| |exact Hv].
  replace w'
    with (execute (Env ledger u now)
            (Stake (input_of a) (proof_of ledger u a)) w).
  - apply (reachable_step ledger w t u now); [assumption|lia|lia].
  - unfold execute. cbn [dispatch]. now rewrite Heq.
Qed.

Lemma unstake_step ledger w t u now a :
  reachable ledger w t ->
  claimed w u = true ->
  t <= now <= uint256_max ->
  0 <= a < two64 ->
  exists w',
    unstake (input_of a) (proof_of ledger u a) (Env ledger u now) w
    = (Ok tt, w')
    /\ reachable ledger w' now
    /\ view w' u
       = Account ((plain_liquid w u + a) mod two64)
           ((plain_staked w u - a) mod two64)
           (plain_pending (settle_world (Env ledger u now) u w) u) now true.
Proof.
  intros Hr Hc Ht Ha.
  pose proof (reachable_inv _ _ _ Hr) as Hi.
  pose proof (inv_clock _ _ _ Hi u) as Hclk.
  apply (inv_claimed _ _ _ Hi) in Hc as Hpos.
  destruct (unstake_effect ledger w t (Env ledger u now) (input_of a)
              (proof_of ledger u a) Hr eq_refl Hc ltac:(cbn; lia)
              (proof_of_ok ledger u now a Ha)) as (w' & Heq & Hv).
  exists w'. split_and!; [exact Heq| |exact Hv].
  replace w'
    with (execute (Env ledger u now)
            (Unstake (input_of a) (proof_of ledger u a)) w).
  - apply (reachable_step ledger w t u now); [assumption|lia|lia].
  - unfold execute. cbn [dispatch]. now rewrite Heq.
Qed.

Lemma interest_step ledger w t u now :
  reachable ledger w t ->
  claimed w u = true ->
  t <= now <= uint256_max ->
  exists w',
    claimInterest (Env ledger u now) w = (Ok tt, w')
    /\ reachable ledger w' now
    /\ view w' u
       = Account
           ((plain_liquid w u
             + plain_pending (settle_world (Env ledger u now) u w) u)
              mod two64)
           (plain_staked w u) 0 now true.
Proof.
  intros Hr Hc Ht.
  pose proof (reachable_inv _ _ _ Hr) as Hi.
  pose proof (inv_clock _ _ _ Hi u) as Hclk.
  apply (inv_claimed _ _ _ Hi) in Hc as Hpos.
  destruct (interest_effect ledger w t (Env ledger u now) Hr eq_refl Hc
              ltac:(cbn; lia)) as (w' & Heq & Hv & _).
  exists w'. split_and!; [exact Heq| |exact Hv].
  replace w' with (execute (Env ledger u now) ClaimInterest w).
  - apply (reachable_step ledger w t u now); [assumption|lia|lia].
  - unfold execute. cbn [dispatch]. now rewrite Heq.
Qed.

(** X11. The round trip needs no funds: for every well-formed amount,
    also one larger than either balance, [stake] followed by [unstake] of
    the same amount, and [unstake] followed by [stake], both succeed and
    bring the liquid and the staked balance back to their values. *)
Theorem roundtrip_for_every_amount ledger w t u a t1 t2 :
  reachable ledger w t ->
  claimed w u = true ->
  0 <= a < 2 ^ 64 ->
  t <= t1 -> t1 <= t2 -> t2 <= uint256_max ->
  let x := input_of a in
  let p := proof_of ledger u a in
  let after_stake := snd (stake x p (Env ledger u t1) w) in
  let after_unstake := snd (unstake x p (Env ledger u t1) w) in
  (fst (stake x p (Env ledger u t1) w) = Ok tt
   /\ fst (unstake x p (Env ledger u t2) after_stake) = Ok tt
   /\ plain_liquid (snd (unstake x p (Env ledger u t2) after_stake)) u
      = plain_liquid w u
   /\ plain_staked (snd (unstake x p (Env ledger u t2) after_stake)) u
      = plain_staked w u)
  /\ (fst (unstake x p (Env ledger u t1) w) = Ok tt
      /\ fst (stake x p (Env ledger u t2) after_unstake) = Ok tt
      /\ plain_liquid (snd (stake x p (Env ledger u t2) after_unstake)) u
         = plain_liquid w u
      /\ plain_staked (snd (stake x p (Env ledger u t2) after_unstake)) u
         = plain_staked w u).
Proof.
  intros Hr Hc Ha Ht1 Ht2 Hmax. cbv zeta. change (2 ^ 64) with two64 in Ha.
  pose proof (reachable_inv _ _ _ Hr) as Hi.
  pose proof (inv_range _ _ _ Hi (liquid_of w u)) as HL.
  pose proof (inv_range _ _ _ Hi (staked_of w u)) as HS.
  fold (plain_liquid w u) in HL. fold (plain_staked w u) in HS.
  destruct (roundtrip_mod (plain_liquid w u) a HL) as [RL1 RL2].
  destruct (roundtrip_mod (plain_staked w u) a HS) as [RS1 RS2].
  split.
  - destruct (stake_step ledger w t u t1 a Hr Hc ltac:(lia) Ha)
      as (w1 & Heq1 & Hr1 & Hv1).
    rewrite Heq1. cbn [fst snd]. view_eqs Hv1 HL1 HS1 HP1 HT1 Hc1.
    destruct (unstake_step ledger w1 t1 u t2 a Hr1 Hc1 ltac:(lia) Ha)
      as (w2 & Heq2 & Hr2 & Hv2).
    rewrite Heq2. cbn [fst snd]. view_eqs Hv2 HL2 HS2 HP2 HT2 Hc2.
    rewrite HL1 in HL2. rewrite HS1 in HS2.
    split_and!; try reflexivity; congruence.
  - destruct (unstake_step ledger w t u t1 a Hr Hc ltac:(lia) Ha)
      as (w1 & Heq1 & Hr1 & Hv1).
    rewrite Heq1. cbn [fst snd]. view_eqs Hv1 HL1 HS1 HP1 HT1 Hc1.
    destruct (stake_step ledger w1 t1 u t2 a Hr1 Hc1 ltac:(lia) Ha)
      as (w2 & Heq2 & Hr2 & Hv2).
    rewrite Heq2. cbn [fst snd]. view_eqs Hv2 HL2 HS2 HP2 HT2 Hc2.
    rewrite HL1 in HL2. rewrite HS1 in HS2.
    split_and!; try reflexivity; congruence.
Qed.

Lemma roundtrip_for_every_amount_witness :
  reachable staking w_claimed 1000
  /\ claimed w_claimed alice = true
  /\ 0 <= 5000 < 2 ^ 64
  /\ plain_staked w_claimed alice < 5000
  /\ plain_staked
       (snd (stake (input_of 5000) (proof_of staking alice 5000)
               (Env staking alice 3000)
               (snd (unstake (input_of 5000) (proof_of staking alice 5000)
                       (Env staking alice 2000) w_claimed)))) alice
     = plain_staked w_claimed alice.
Proof.
  assert (claimed w_claimed alice = true) as Hc by (vm_compute; reflexivity).
  assert (0 <= 5000 < 2 ^ 64) as Ha by (split; [discriminate|reflexivity]).
  assert (3000 <= uint256_max) as Hmax by (vm_compute; discriminate).
  destruct (roundtrip_for_every_amount staking w_claimed 1000 alice 5000 2000
              3000 reach_claimed Hc Ha ltac:(lia) ltac:(lia) Hmax)
    as (_ & _ & _ & _ & HS).
  split; [exact reach_claimed|]. split; [exact Hc|]. split; [exact Ha|].
  split; [vm_compute; reflexivity|exact HS].
Defined.

Lemma sub_sub_mod (x a b : Z) :
  ((x - a) mod two64 - b) mod two64 = (x - (a + b)) mod two64.
Proof.
  rewrite Zminus_mod_idemp_l. f_equal. ring.
Qed.

Lemma add_add_mod (x a b : Z) :
  ((x + a) mod two64 + b) mod two64 = (x + (a + b)) mod two64.
Proof.
  rewrite Zplus_mod_idemp_l. f_equal. ring.
Qed.

(** X12. Stakes add up: two successive stakes of [a] and [b] leave the
    liquid balance at [(L - (a + b)) mod 2^64] and the staked balance at
    [(S + (a + b)) mod 2^64], which is what one stake of [a + b] gives when
    [a + b] is itself a 64-bit amount. *)
Theorem stakes_add_up ledger w t u a b t1 t2 :
  reachable ledger w t ->
  claimed w u = true ->
  0 <= a < 2 ^ 64 -> 0 <= b < 2 ^ 64 ->
  t <= t1 -> t1 <= t2 -> t2 <= uint256_max ->
  let w1 := snd (stake (input_of a) (proof_of ledger u a) (Env ledger u t1) w) in
  let w2 :=
    snd (stake (input_of b) (proof_of ledger u b) (Env ledger u t2) w1) in
  plain_liquid w2 u = (plain_liquid w u - (a + b)) mod 2 ^ 64
  /\ plain_staked w2 u = (plain_staked w u + (a + b)) mod 2 ^ 64
  /\ (a + b < 2 ^ 64 ->
      let w' :=
        snd (stake (input_of (a + b)) (proof_of ledger u (a + b))
               (Env ledger u t2) w) in
      plain_liquid w2 u = plain_liquid w' u
      /\ plain_staked w2 u = plain_staked w' u).
Proof.
  intros Hr Hc Ha Hb Ht1 Ht2 Hmax. cbv zeta. change (2 ^ 64) with two64 in *.
  destruct (stake_step ledger w t u t1 a Hr Hc ltac:(lia) Ha)
    as (w1 & Heq1 & Hr1 & Hv1).
  rewrite Heq1. cbn [snd]. view_eqs Hv1 HL1 HS1 HP1 HT1 Hc1.
  destruct (stake_step ledger w1 t1 u t2 b Hr1 Hc1 ltac:(lia) Hb)
    as (w2 & Heq2 & Hr2 & Hv2).
  rewrite Heq2. cbn [snd]. view_eqs Hv2 HL2 HS2 HP2 HT2 Hc2.
  rewrite HL1, sub_sub_mod in HL2. rewrite HS1, add_add_mod in HS2.
  split_and!; [exact HL2|exact HS2|].
  intros Hab.
  destruct (stake_step ledger w t u t2 (a + b) Hr Hc ltac:(lia) ltac:(lia))
    as (w' & Heq' & _ & Hv').
  rewrite Heq'. cbn [snd]. view_eqs Hv' HL' HS' HP' HT' Hc'.
  split; congruence.
Qed.

Lemma stakes_add_up_witness :
  reachable staking w_claimed 1000
  /\ claimed w_claimed alice = true
  /\ plain_staked
       (snd (stake (input_of 200) (proof_of staking alice 200)
               (Env staking alice 3000)
               (snd (stake (input_of 100) (proof_of staking alice 100)
                       (Env staking alice 2000) w_claimed)))) alice
     = (plain_staked w_claimed alice + (100 + 200)) mod 2 ^ 64.
Proof.
  assert (claimed w_claimed alice = true) as Hc by (vm_compute; reflexivity).
  assert (0 <= 100 < 2 ^ 64) as Ha by (split; [discriminate|reflexivity]).
  assert (0 <= 200 < 2 ^ 64) as Hb by (split; [discriminate|reflexivity]).
  assert (3000 <= uint256_max) as Hmax by (vm_compute; discriminate).
  destruct (stakes_add_up staking w_claimed 1000 alice 100 200 2000 3000
              reach_claimed Hc Ha Hb ltac:(lia) ltac:(lia) Hmax)
    as (_ & HS & _).
  split; [exact reach_claimed|]. split; [exact Hc|exact HS].
Defined.

(** X13. [claimInterest] pays out whatever is pending: for a claimed
    account it succeeds at any block not older than the last one, adds to
    the liquid balance the interest already pending plus the interest of
    the whole days elapsed since the checkpoint (all modulo 2^64), leaves
    the staked balance, resets the pending interest to 0 and moves the
    checkpoint to the block time. *)
Theorem claimInterest_pays_pending ledger w t u now :
  reachable ledger w t ->
  claimed w u = true ->
  t <= now <= uint256_max ->
  let d := (now - last_of w u) / 86400 in
  let interest :=
    if d =? 0 then 0 else ((plain_staked w u * d) mod 2 ^ 64) / 100 in
  let w' := snd (claimInterest (Env ledger u now) w) in
  fst (claimInterest (Env ledger u now) w) = Ok tt
  /\ plain_liquid w' u
     = (plain_liquid w u + plain_pending w u + interest) mod 2 ^ 64
  /\ plain_staked w' u = plain_staked w u
  /\ plain_pending w' u = 0
  /\ last_of w' u = now.
Proof.
  intros Hr Hc Ht. cbv zeta. change (2 ^ 64) with two64.
  pose proof (reachable_inv _ _ _ Hr) as Hi.
  apply (inv_claimed _ _ _ Hi) in Hc as Hpos.
  destruct (interest_step ledger w t u now Hr Hc Ht) as (w' & Heq & _ & Hv).
  rewrite Heq. cbn [fst snd]. view_eqs Hv HL HS HP HT HC.
  split_and!; try reflexivity; try assumption.
  rewrite HL, <- Z.add_assoc.
  apply add_mod_cong; [reflexivity|].
  rewrite (settle_pending_mod ledger (Env ledger u now) u w t Hi Hc).
  unfold settle_interest, accrued_interest, elapsed_days, one_day.
  cbn [block_timestamp].
  destruct (Z.eqb_spec (last_of w u) 0); [lia|reflexivity].
Qed.

Lemma claimInterest_pays_pending_witness :
  reachable staking w_staked500 1000
  /\ claimed w_staked500 alice = true
  /\ 1000 <= 1000 + 3 * 86400 <= uint256_max
  /\ plain_liquid
       (snd (claimInterest (Env staking alice (1000 + 3 * 86400))
               w_staked500)) alice
     = 515.
Proof.
  assert (claimed w_staked500 alice = true) as Hc
    by (vm_compute; reflexivity).
  assert (1000 <= 1000 + 3 * 86400 <= uint256_max) as Ht
    by (split; discriminate).
  destruct (claimInterest_pays_pending staking w_staked500 1000 alice
              (1000 + 3 * 86400) reach_staked500 Hc Ht)
    as (_ & HL & _).
  split; [exact reach_staked500|]. split; [exact Hc|]. split; [exact Ht|].
  rewrite HL. vm_compute. reflexivity.
Defined.

(** X14. Claiming twice pays once: a second [claimInterest] less than a
    day after a first one succeeds, changes none of the three balances and
    logs an [InterestClaimed] event with a day count of 0. *)
Theorem claimInterest_twice_within_a_day ledger w t u t1 t2 :
  reachable ledger w t ->
  claimed w u = true ->
  t <= t1 -> t1 <= t2 -> t2 < t1 + 86400 -> t2 <= uint256_max ->
  let w1 := snd (claimInterest (Env ledger u t1) w) in
  let w2 := snd (claimInterest (Env ledger u t2) w1) in
  fst (claimInterest (Env ledger u t2) w1) = Ok tt
  /\ plain_liquid w2 u = plain_liquid w1 u
  /\ plain_staked w2 u = plain_staked w1 u
  /\ plain_pending w2 u = 0 /\ plain_pending w1 u = 0
  /\ logs w2 = logs w1 ++ [InterestClaimed u 0].
Proof.
  intros Hr Hc Ht1 Ht2 Hday Hmax. cbv zeta.
  pose proof (reachable_inv _ _ _ Hr) as Hi.
  apply (inv_claimed _ _ _ Hi) in Hc as Hpos.
  pose proof (inv_clock _ _ _ Hi u) as Hclk.
  destruct (interest_step ledger w t u t1 Hr Hc ltac:(lia))
    as (w1 & Heq1 & Hr1 & Hv1).
  rewrite Heq1. cbn [snd]. view_eqs Hv1 HL1 HS1 HP1 HT1 Hc1.
  pose proof (reachable_inv _ _ _ Hr1) as Hi1.
  pose proof (inv_range _ _ _ Hi1 (liquid_of w1 u)) as HLr.
  fold (plain_liquid w1 u) in HLr.
  destruct (interest_effect ledger w1 t1 (Env ledger u t2) Hr1 eq_refl Hc1
              ltac:(cbn; lia)) as (w2 & Heq2 & Hv2 & Hlog & _).
  cbn [msg_sender block_timestamp] in Hv2, Hlog.
  assert (elapsed_days (Env ledger u t2) w1 u = 0) as Hd.
  { unfold elapsed_days, one_day. cbn [block_timestamp]. rewrite HT1.
    apply Z.div_small. lia. }
  assert (settle_world (Env ledger u t2) u w1 = w1) as Hs.
  { unfold settle_world. rewrite Hd.
    destruct (Z.eqb_spec (last_of w1 u) 0); [lia|reflexivity]. }
  rewrite Hs, HP1, Z.add_0_r, Z.mod_small in Hv2 by exact HLr.
  rewrite Hd in Hlog.
  rewrite Heq2. cbn [fst snd]. view_eqs Hv2 HL2 HS2 HP2 HT2 Hc2.
  split_and!; try reflexivity; assumption.
Qed.

Lemma claimInterest_twice_within_a_day_witness :
  reachable staking w_staked500 1000
  /\ claimed w_staked500 alice = true
  /\ plain_liquid
       (snd (claimInterest (Env staking alice (5000 + 3 * 86400))
               (snd (claimInterest (Env staking alice (1000 + 3 * 86400))
                       w_staked500)))) alice
     = 515.
Proof.
  assert (claimed w_staked500 alice = true) as Hc
    by (vm_compute; reflexivity).
  assert (5000 + 3 * 86400 <= uint256_max) as Hmax by discriminate.
  destruct (claimInterest_twice_within_a_day staking w_staked500 1000 alice
              (1000 + 3 * 86400) (5000 + 3 * 86400) reach_staked500 Hc
              ltac:(lia) ltac:(lia) ltac:(lia) Hmax)
    as (_ & HL & _).
  split; [exact reach_staked500|]. split; [exact Hc|].
  rewrite HL. vm_compute. reflexivity.
Defined.

(** X15. The day count restarts at every successful call: after a call of
    an account has succeeded at time [t1], the accrual step for that
    account at a later time [t2] counts [(t2 - t1) / 86400] days, whatever
    part of a day had gone by before [t1]; it adds the interest of these
    days to the pending interest and advances the checkpoint by them. *)
Theorem accrual_counts_from_last_call ledger w t u c t1 t2 :
  reachable ledger w t ->
  t <= t1 -> 0 < t1 -> t1 <= t2 -> t2 <= uint256_max ->
  succeeds (Env ledger u t1) c w = true ->
  let w1 := execute (Env ledger u t1) c w in
  let d := (t2 - t1) / 86400 in
  let w2 := snd (_settleRewards u (Env ledger u t2) w1) in
  fst (_settleRewards u (Env ledger u t2) w1) = Ok d
  /\ plain_pending w2 u
     = (if d =? 0 then plain_pending w1 u
        else (plain_pending w1 u + ((plain_staked w1 u * d) mod 2 ^ 64) / 100)
               mod 2 ^ 64)
  /\ last_of w2 u = t1 + d * 86400
  /\ (d = 0 -> w2 = w1).
Proof.
  intros Hr Ht1 Hpos Ht2 Hmax Hok. cbv zeta. change (2 ^ 64) with two64.
  pose proof (reachable_inv _ _ _ Hr) as Hi.
  destruct (execute_cases ledger (Env ledger u t1) c w t Hi
              ltac:(cbn; lia)) as [[Hno _]|[_ Hcom]]; [congruence|].
  destruct (committed_self ledger _ c w _ t Hi Hcom) as [Hc1 HT1].
  cbn [msg_sender block_timestamp] in Hc1, HT1.
  pose proof (reachable_step ledger w t u t1 c Hr Ht1 ltac:(lia)) as Hr1.
  set (w1 := execute (Env ledger u t1) c w) in *.
  pose proof (reachable_inv _ _ _ Hr1) as Hi1.
  pose proof (inv_fresh _ _ _ Hi1) as Hf1.
  rewrite (settle_eq (Env ledger u t2) w1 u Hf1)
    by (cbn [block_timestamp]; lia).
  cbn [fst snd].
  pose proof (view_settle_self (Env ledger u t2) u w1 Hf1 ltac:(lia)) as Hv.
  assert (elapsed_days (Env ledger u t2) w1 u = (t2 - t1) / 86400) as Hd.
  { unfold elapsed_days, one_day. cbn [block_timestamp]. now rewrite HT1. }
  unfold settle_days. unfold accrued_interest, one_day in Hv.
  rewrite Hd in *. rewrite HT1 in Hv.
  destruct (Z.eqb_spec (last_of w1 u) 0) as [H0|_]; [lia|].
  destruct (Z.eqb_spec ((t2 - t1) / 86400) 0) as [Hz|Hnz];
    view_eqs Hv HL HS HP HT HC.
  - split_and!; [congruence|assumption|lia|].
    intros _. unfold settle_world. rewrite Hd, Hz.
    destruct (Z.eqb_spec (last_of w1 u) 0); [lia|reflexivity].
  - split_and!; [reflexivity|assumption|assumption|contradiction].
Qed.

Lemma accrual_counts_from_last_call_witness :
  reachable staking w_claimed 1000
  /\ succeeds (Env staking alice (1000 + 43200))
       (Stake (input_of 500) (proof_of staking alice 500)) w_claimed = true
  /\ fst (_settleRewards alice (Env staking alice (1000 + 86400 + 43199))
            (execute (Env staking alice (1000 + 43200))
               (Stake (input_of 500) (proof_of staking alice 500))
               w_claimed))
     = Ok 0.
Proof.
  assert (succeeds (Env staking alice (1000 + 43200))
            (Stake (input_of 500) (proof_of staking alice 500)) w_claimed
          = true) as Hok by (vm_compute; reflexivity).
  assert (1000 + 86400 + 43199 <= uint256_max) as Hmax by discriminate.
  destruct (accrual_counts_from_last_call staking w_claimed 1000 alice
              (Stake (input_of 500) (proof_of staking alice 500))
              (1000 + 43200) (1000 + 86400 + 43199) reach_claimed
              ltac:(lia) ltac:(lia) ltac:(lia) Hmax Hok)
    as (Hd & _).
  split; [exact reach_claimed|]. split; [exact Hok|exact Hd].
Defined.

(** ** Claiming early and often *)

Lemma quotients_add (a b k : Z) :
  0 < k -> 0 <= a -> 0 <= b -> a / k + b / k <= (a + b) / k.
Proof.
  intros Hk Ha Hb. apply Z.div_le_lower_bound; [assumption|].
  pose proof (Z.mul_div_le a k Hk). pose proof (Z.mul_div_le b k Hk). lia.
Qed.

Lemma interest_without_wrap (S d : Z) :
  0 <= S -> 0 <= d -> S * d < two64 ->
  (if d =? 0 then 0 else ((S * d) mod two64) / 100) = (S * d) / 100.
Proof.
  intros HS Hd Hlt. destruct (Z.eqb_spec d 0) as [->|Hne].
  - now rewrite Z.mul_0_r.
  - rewrite Z.mod_small by nia. reflexivity.
Qed.

Lemma interest_paid ledger w t u now :
  reachable ledger w t ->
  claimed w u = true ->
  t <= now <= uint256_max ->
  exists w',
    claimInterest (Env ledger u now) w = (Ok tt, w')
    /\ reachable ledger w' now
    /\ view w' u
       = Account
           ((plain_liquid w u + plain_pending w u
             + (if (now - last_of w u) / 86400 =? 0 then 0
                else ((plain_staked w u * ((now - last_of w u) / 86400))
                        mod two64) / 100)) mod two64)
           (plain_staked w u) 0 now true.
Proof.
  intros Hr Hc Ht.
  pose proof (reachable_inv _ _ _ Hr) as Hi.
  apply (inv_claimed _ _ _ Hi) in Hc as Hpos.
  destruct (interest_step ledger w t u now Hr Hc Ht) as (w' & Heq & Hr' & Hv).
  exists w'. split_and!; [assumption|assumption|].
  rewrite Hv. f_equal. rewrite <- Z.add_assoc.
  apply add_mod_cong; [reflexivity|].
  rewrite (settle_pending_mod ledger (Env ledger u now) u w t Hi Hc).
  unfold settle_interest, accrued_interest, elapsed_days, one_day.
  cbn [block_timestamp].
  destruct (Z.eqb_spec (last_of w u) 0); [lia|reflexivity].
Qed.

(** X16. An extra claim on the way never pays more: as long as no 64-bit
    operation wraps, claiming interest at [t1] and again at [t2] leaves a
    liquid balance that is at most the one a single claim at [t2] leaves.
    The single claim pays [floor(S * d / 100)] for the [d] whole days since
    the checkpoint; the two claims pay the floors of the two parts, and the
    whole days of the two parts add up to at most [d]. *)
Theorem extra_claim_never_pays_more ledger w t u t1 t2 :
  reachable ledger w t ->
  claimed w u = true ->
  t <= t1 -> t1 <= t2 -> t2 <= uint256_max ->
  let S := plain_staked w u in
  let d := (t2 - last_of w u) / 86400 in
  let d1 := (t1 - last_of w u) / 86400 in
  let d2 := (t2 - t1) / 86400 in
  S * d < 2 ^ 64 ->
  plain_liquid w u + plain_pending w u + (S * d) / 100 < 2 ^ 64 ->
  let once := snd (claimInterest (Env ledger u t2) w) in
  let twice :=
    snd (claimInterest (Env ledger u t2)
           (snd (claimInterest (Env ledger u t1) w))) in
  plain_liquid once u
  = plain_liquid w u + plain_pending w u + (S * d) / 100
  /\ plain_liquid twice u
     = plain_liquid w u + plain_pending w u + (S * d1) / 100 + (S * d2) / 100
  /\ d1 + d2 <= d
  /\ plain_liquid twice u <= plain_liquid once u.
Proof.
  intros Hr Hc Ht1 Ht2 Hmax. cbv zeta. change (2 ^ 64) with two64.
  intros Hmul Hsum.
  pose proof (reachable_inv _ _ _ Hr) as Hi.
  apply (inv_claimed _ _ _ Hi) in Hc as Hpos.
  pose proof (inv_clock _ _ _ Hi u) as Hclk.
  pose proof (inv_range _ _ _ Hi (liquid_of w u)) as HLr.
  pose proof (inv_range _ _ _ Hi (staked_of w u)) as HSr.
  pose proof (inv_range _ _ _ Hi (pending_of w u)) as HPr.
  fold (plain_liquid w u) in HLr. fold (plain_staked w u) in HSr.
  fold (plain_pending w u) in HPr.
  set (L := plain_liquid w u) in *. set (S := plain_staked w u) in *.
  set (P := plain_pending w u) in *. set (last := last_of w u) in *.
  assert (0 <= (t1 - last) / 86400) as Hd1 by (apply Z.div_pos; lia).
  assert (0 <= (t2 - t1) / 86400) as Hd2 by (apply Z.div_pos; lia).
  assert ((t1 - last) / 86400 + (t2 - t1) / 86400 <= (t2 - last) / 86400)
    as Hdays.
  { pose proof (quotients_add (t1 - last) (t2 - t1) 86400) as Hq.
    replace (t1 - last + (t2 - t1)) with (t2 - last) in Hq by ring.
    apply Hq; lia. }
  set (d1 := (t1 - last) / 86400) in *. set (d2 := (t2 - t1) / 86400) in *.
  set (d := (t2 - last) / 86400) in *.
  assert (S * d1 + S * d2 <= S * d) as Hparts by nia.
  assert (0 <= S * d1) as Hp1 by nia. assert (0 <= S * d2) as Hp2 by nia.
  assert ((S * d1) / 100 + (S * d2) / 100 <= (S * d) / 100) as Hfloors.
  { etransitivity; [apply quotients_add; lia|].
    apply Z.div_le_mono; lia. }
  assert (0 <= (S * d1) / 100) as Hq1 by (apply Z.div_pos; lia).
  assert (0 <= (S * d2) / 100) as Hq2 by (apply Z.div_pos; lia).
  destruct (interest_paid ledger w t u t2 Hr Hc ltac:(lia))
    as (wo & Heqo & _ & Hvo).
  fold L S P last d in Hvo.
  rewrite interest_without_wrap, Z.mod_small in Hvo by lia.
  rewrite Heqo. cbn [snd]. view_eqs Hvo HLo HSo HPo HTo Hco.
  destruct (interest_paid ledger w t u t1 Hr Hc ltac:(lia))
    as (w1 & Heq1 & Hr1 & Hv1).
  fold L S P last d1 in Hv1.
  rewrite interest_without_wrap, Z.mod_small in Hv1 by lia.
  rewrite Heq1. cbn [snd]. view_eqs Hv1 HL1 HS1 HP1 HT1 Hc1.
  destruct (interest_paid ledger w1 t1 u t2 Hr1 Hc1 ltac:(lia))
    as (w2 & Heq2 & _ & Hv2).
  rewrite HL1, HS1, HP1, HT1 in Hv2. fold d2 in Hv2.
  rewrite interest_without_wrap, Z.mod_small in Hv2 by lia.
  rewrite Heq2. cbn [snd]. view_eqs Hv2 HL2 HS2 HP2 HT2 Hc2.
  split_and!; lia.
Qed.

Lemma extra_claim_never_pays_more_witness :
  reachable staking w_staked500 1000
  /\ claimed w_staked500 alice = true
  /\ plain_liquid
       (snd (claimInterest (Env staking alice (1000 + 3 * 86400))
               (snd (claimInterest (Env staking alice (1000 + 2 * 86400 - 1))
                       w_staked500)))) alice
     = 510
  /\ plain_liquid
       (snd (claimInterest (Env staking alice (1000 + 3 * 86400))
               w_staked500)) alice
     = 515.
Proof.
  assert (claimed w_staked500 alice = true) as Hc
    by (vm_compute; reflexivity).
  assert (1000 + 3 * 86400 <= uint256_max) as Hmax by discriminate.
  assert (plain_staked w_staked500 alice
          * ((1000 + 3 * 86400 - last_of w_staked500 alice) / 86400)
          < 2 ^ 64) as Hmul by (vm_compute; reflexivity).
  assert (plain_liquid w_staked500 alice + plain_pending w_staked500 alice
          + plain_staked w_staked500 alice
            * ((1000 + 3 * 86400 - last_of w_staked500 alice) / 86400) / 100
          < 2 ^ 64) as Hsum by (vm_compute; reflexivity).
  destruct (extra_claim_never_pays_more staking w_staked500 1000 alice
              (1000 + 2 * 86400 - 1) (1000 + 3 * 86400) reach_staked500 Hc
              ltac:(lia) ltac:(lia) Hmax Hmul Hsum)
    as (Hone & Htwo & _).
  split; [exact reach_staked500|]. split; [exact Hc|].
  split; [rewrite Htwo|rewrite Hone]; vm_compute; reflexivity.
Defined.

(** * The dApp's projection of the interest

    [calculateProjectedInterest] of [StakingApp.tsx] predicts, from the
    decrypted balances and a number of days, the pending interest an
    accrual would leave.  [bigint] values are unbounded integers and the
    [/] of [bigint] truncates towards zero.  [extraDays] is a JS [number]:
    the model takes it as the whole number it holds ([BigInt] of any other
    number throws), which is exact for magnitudes below [2^53] only, so
    what is proved of the function is proved for day counts below
    [2^53]. *)

Module StakingApp.

Record DecryptedState : Type := Decrypted {
  balance : Z;
  staked : Z;
  interest : Z
}.

Definition calculateProjectedInterest
    (state : option DecryptedState) (extraDays : Z) : option Z :=
  match state with
  | None => None
  | Some state =>
      if extraDays <=? 0 then Some (interest state)
      else
        let accrued := (staked state * extraDays) ÷ 100 in
        Some (interest state + accrued)
  end.

(** The state the dApp holds once it has decrypted the three handles that
    [getAccountState] returns for [u]. *)
Definition decrypted (w : world) (u : address) : DecryptedState :=
  Decrypted (plain_liquid w u) (plain_staked w u) (plain_pending w u).

End StakingApp.

(** X17. The dApp's projection bounds the contract's accrual from above:
    for a claimed account and the whole days [d] elapsed since its
    checkpoint, as long as [d] is below [2^53] and so held exactly by a JS
    [number], [calculateProjectedInterest] returns a value that the pending
    interest after [_settleRewards] never exceeds, and the two are equal
    whenever the contract's 64-bit product and sum do not wrap. *)
Theorem projection_bounds_accrual ledger w t u now :
  reachable ledger w t ->
  claimed w u = true ->
  t <= now <= uint256_max ->
  let d := (now - last_of w u) / 86400 in
  d < 2 ^ 53 ->
  let settled := snd (_settleRewards u (Env ledger u now) w) in
  exists projected,
    StakingApp.calculateProjectedInterest (Some (StakingApp.decrypted w u)) d
    = Some projected
    /\ plain_pending settled u <= projected
    /\ (plain_staked w u * d < 2 ^ 64 ->
        plain_pending w u + (plain_staked w u * d) / 100 < 2 ^ 64 ->
        plain_pending settled u = projected).
Proof.
  intros Hr Hc Ht. cbv zeta. change (2 ^ 64) with two64. intros _.
  pose proof (reachable_inv _ _ _ Hr) as Hi.
  pose proof (inv_fresh _ _ _ Hi) as Hf.
  apply (inv_claimed _ _ _ Hi) in Hc as Hpos.
  pose proof (inv_clock _ _ _ Hi u) as Hclk.
  pose proof (inv_range _ _ _ Hi (staked_of w u)) as HSr.
  pose proof (inv_range _ _ _ Hi (pending_of w u)) as HPr.
  fold (plain_staked w u) in HSr. fold (plain_pending w u) in HPr.
  rewrite (settle_eq (Env ledger u now) w u Hf)
    by (cbn [block_timestamp]; lia).
  cbn [snd].
  pose proof (view_settle_self (Env ledger u now) u w Hf ltac:(lia)) as Hv.
  unfold accrued_interest, elapsed_days, one_day in Hv.
  cbn [block_timestamp] in Hv.
  unfold StakingApp.calculateProjectedInterest, StakingApp.decrypted.
  cbn [StakingApp.interest StakingApp.staked].
  set (S := plain_staked w u) in *. set (P := plain_pending w u) in *.
  assert (0 <= (now - last_of w u) / 86400) as Hd by (apply Z.div_pos; lia).
  set (d := (now - last_of w u) / 86400) in *.
  destruct (Z.eqb_spec d 0) as [Hz|Hnz]; view_eqs Hv HL HS HP HT HC.
  - rewrite Hz. cbn [Z.leb Z.compare]. exists P. rewrite HP.
    split_and!; [reflexivity|lia|reflexivity].
  - destruct (Z.leb_spec d 0) as [Hle|Hlt]; [lia|].
    exists (P + (S * d) ÷ 100). rewrite HP.
    rewrite Z.quot_div_nonneg by nia.
    pose proof (mod64_range (S * d)) as Hm.
    assert ((S * d) mod two64 <= S * d) as Hmle
      by (apply Z.mod_le; [nia|reflexivity]).
    assert ((S * d) mod two64 / 100 <= (S * d) / 100) as Hdle
      by (apply Z.div_le_mono; lia).
    assert (0 <= (S * d) mod two64 / 100) as Hq by (apply Z.div_pos; lia).
    split_and!; [reflexivity| |].
    + etransitivity; [apply Z.mod_le; [lia|reflexivity]|lia].
    + intros Hmul Hsum. rewrite (Z.mod_small (S * d)) by nia.
      apply Z.mod_small. pose proof (Z.div_pos (S * d) 100). nia.
Qed.

Lemma projection_bounds_accrual_witness :
  reachable staking w_staked_huge 1000
  /\ claimed w_staked_huge alice = true
  /\ (1000 + 2 * 86400 - last_of w_staked_huge alice) / 86400 < 2 ^ 53
  /\ StakingApp.calculateProjectedInterest
       (Some (StakingApp.decrypted w_staked_huge alice)) 2
     = Some (2 ^ 64 / 100)
  /\ plain_pending
       (snd (_settleRewards alice (Env staking alice (1000 + 2 * 86400))
               w_staked_huge)) alice
     <= 2 ^ 64 / 100.
Proof.
  assert (claimed w_staked_huge alice = true) as Hc
    by (vm_compute; reflexivity).
  assert (1000 <= 1000 + 2 * 86400 <= uint256_max) as Ht
    by (split; discriminate).
  assert ((1000 + 2 * 86400 - last_of w_staked_huge alice) / 86400 < 2 ^ 53)
    as Hd by (vm_compute; reflexivity).
  destruct (projection_bounds_accrual staking w_staked_huge 1000 alice
              (1000 + 2 * 86400) reach_staked_huge Hc Ht Hd)
    as (p & Hp & Hle & _).
  assert (StakingApp.calculateProjectedInterest
            (Some (StakingApp.decrypted w_staked_huge alice)) 2
          = Some (2 ^ 64 / 100)) as Hproj by (vm_compute; reflexivity).
  split; [exact reach_staked_huge|]. split; [exact Hc|].
  split; [exact Hd|]. split; [exact Hproj|].
  assert (Some p = Some (2 ^ 64 / 100)) as Heq.
  { rewrite <- Hproj. rewrite <- Hp. f_equal. }
  injection Heq as <-. exact Hle.
Defined.

(** * How the dApp prints amounts

    [formatBigint] of [StakingApp.tsx] prints [value.toString()] after
    [replace(/\B(?=(\d{3})+(?!\d))/g, ',')].  The pattern matches the empty
    string, so the global replace tests every position of the text once and
    puts a comma at each position that matches. *)

(** [\d] *)
Definition is_digit (c : ascii) : bool :=
  (48 <=? N_of_ascii c)%N && (N_of_ascii c <=? 57)%N.

(** [\w]: a letter, a digit or the underscore. *)
Definition is_word (c : ascii) : bool :=
  is_digit c
  || ((65 <=? N_of_ascii c)%N && (N_of_ascii c <=? 90)%N)
  || ((97 <=? N_of_ascii c)%N && (N_of_ascii c <=? 122)%N)
  || (N_of_ascii c =? 95)%N.

Definition word_before (prev : option ascii) : bool :=
  match prev with Some c => is_word c | None => false end.

Definition word_at (s : string) : bool :=
  match s with String c _ => is_word c | EmptyString => false end.

Definition digit_at (s : string) : bool :=
  match s with String c _ => is_digit c | EmptyString => false end.

(** [\B]: the characters on the two sides of the position are both word
    characters or both not (the ends of the text count as not). *)
Definition not_word_boundary (prev : option ascii) (s : string) : bool :=
  Bool.eqb (word_before prev) (word_at s).

(** [(\d{3})+(?!\d)] at the head of [s]: three digits, then either more
    groups of three or no digit. *)
Fixpoint digit_groups (s : string) : bool :=
  match s with
  | String a (String b (String c r)) =>
      is_digit a && is_digit b && is_digit c
      && (digit_groups r || negb (digit_at r))
  | _ => false
  end.

(** [s.replace(/\B(?=(\d{3})+(?!\d))/g, ',')], where [prev] is the character
    before [s] in the whole text. *)
Fixpoint replace_with_commas (prev : option ascii) (s : string) : string :=
  let here :=
    if not_word_boundary prev s && digit_groups s then "," else "" in
  match s with
  | EmptyString => here
  | String c r => here +:+ String c (replace_with_commas (Some c) r)
  end.

(** [value.toString()] of a [bigint]: the decimal digits, after a minus sign
    for a negative value. *)
Definition toString (value : Z) : string :=
  NilZero.string_of_int (Z.to_int value).

Definition formatBigint (value : option Z) : string :=
  match value with
  | None => "--"
  | Some value => replace_with_commas None (toString value)
  end.

(** The reference the pattern is compared with: a comma after every digit
    that has a positive multiple of three digits to its right. *)
Definition group_starts (s : string) : bool :=
  (0 <? String.length s)%nat && (String.length s mod 3 =? 0)%nat.

Fixpoint group_thousands (s : string) : string :=
  match s with
  | EmptyString => EmptyString
  | String c r =>
      String c ((if group_starts r then "," else "") +:+ group_thousands r)
  end.

Fixpoint strip_commas (s : string) : string :=
  match s with
  | EmptyString => EmptyString
  | String c r =>
      if Ascii.eqb c "," then strip_commas r else String c (strip_commas r)
  end.

Fixpoint all_digits (s : string) : bool :=
  match s with
  | EmptyString => true
  | String c r => is_digit c && all_digits r
  end.

Lemma digits_of_uint d : all_digits (NilEmpty.string_of_uint d) = true.
Proof. induction d; cbn [NilEmpty.string_of_uint all_digits]; auto. Qed.

Lemma digits_of_nat d : all_digits (NilZero.string_of_uint d) = true.
Proof. destruct d; try reflexivity; apply (digits_of_uint (_ d)). Qed.

Lemma digit_is_word c : is_digit c = true -> is_word c = true.
Proof. unfold is_word. now intros ->. Qed.

Lemma digit_at_digits s :
  all_digits s = true -> digit_at s = (0 <? String.length s)%nat.
Proof.
  destruct s as [|c r]; [reflexivity|]. cbn [all_digits digit_at].
  intros [Hc _]%andb_true_iff. exact Hc.
Qed.

Lemma group_starts_add3 (n : nat) :
  ((0 <? n)%nat && (n mod 3 =? 0)%nat) || negb (0 <? n)%nat
  = ((3 + n) mod 3 =? 0)%nat.
Proof.
  replace (3 + n)%nat with (n + 1 * 3)%nat by lia.
  rewrite Nat.Div0.mod_add.
  destruct n; [reflexivity|].
  change (0 <? S n)%nat with true. cbn [andb negb]. now rewrite orb_false_r.
Qed.

Lemma digit_groups_digits (n : nat) (s : string) :
  (String.length s <= n)%nat ->
  all_digits s = true -> digit_groups s = group_starts s.
Proof.
  revert s. induction n as [|n IH]; intros s Hlen Hd.
  - destruct s; [reflexivity|cbn in Hlen; lia].
  - destruct s as [|a [|b [|c r]]]; try reflexivity.
    cbn [all_digits] in Hd.
    apply andb_true_iff in Hd as [Ha Hd].
    apply andb_true_iff in Hd as [Hb Hd].
    apply andb_true_iff in Hd as [Hc Hd].
    cbn [String.length] in Hlen.
    cbn [digit_groups]. rewrite Ha, Hb, Hc, (IH r) by (assumption || lia).
    rewrite (digit_at_digits r Hd). cbn [andb]. unfold group_starts.
    change (String.length (String a (String b (String c r))))
      with (3 + String.length r)%nat.
    rewrite group_starts_add3.
    change (0 <? 3 + String.length r)%nat with true. reflexivity.
Qed.

Lemma replace_after_digit p s :
  is_digit p = true -> all_digits s = true ->
  replace_with_commas (Some p) s
  = (if group_starts s then "," else "") +:+ group_thousands s.
Proof.
  revert p. induction s as [|c r IH]; intros p Hp Hd.
  - cbn [replace_with_commas digit_groups]. now rewrite andb_false_r.
  - pose proof Hd as Hall. cbn [all_digits] in Hd.
    apply andb_true_iff in Hd as [Hc Hr].
    cbn [replace_with_commas group_thousands].
    rewrite (IH c Hc Hr).
    rewrite (digit_groups_digits _ _ (le_n _) Hall).
    unfold not_word_boundary. cbn [word_before word_at].
    rewrite (digit_is_word p Hp), (digit_is_word c Hc). reflexivity.
Qed.

Lemma replace_after_other prev s :
  word_before prev = false -> all_digits s = true ->
  replace_with_commas prev s = group_thousands s.
Proof.
  intros Hprev Hd. destruct s as [|c r]; cbn [replace_with_commas].
  - unfold not_word_boundary. now rewrite andb_false_r.
  - cbn [all_digits] in Hd. apply andb_true_iff in Hd as [Hc Hr].
    unfold not_word_boundary. cbn [word_at].
    rewrite Hprev, (digit_is_word c Hc). cbn [Bool.eqb andb].
    now rewrite (replace_after_digit c r Hc Hr).
Qed.

Lemma strip_grouped s :
  all_digits s = true -> strip_commas (group_thousands s) = s.
Proof.
  induction s as [|c r IH]; [reflexivity|]. cbn [all_digits group_thousands].
  intros [Hc Hr]%andb_true_iff. cbn [strip_commas].
  assert (Ascii.eqb c "," = false) as ->.
  { destruct (Ascii.eqb_spec c ",") as [->|]; [discriminate Hc|reflexivity]. }
  f_equal. destruct (group_starts r); cbn; auto.
Qed.

Lemma digit_groups_other a r :
  is_digit a = false -> digit_groups (String a r) = false.
Proof.
  intros Ha. destruct r as [|b [|c r]]; cbn [digit_groups]; try reflexivity.
  now rewrite Ha.
Qed.

Lemma toString_nonneg v :
  0 <= v -> exists d, toString v = NilZero.string_of_uint d.
Proof.
  intros Hv. unfold toString. destruct v as [|p|p]; [| |lia]; eexists;
    reflexivity.
Qed.

Lemma toString_neg v :
  v < 0 -> toString v = String "-" (toString (- v)).
Proof. intros Hv. destruct v as [|p|p]; try lia. reflexivity. Qed.

(** X18. [formatBigint] prints [--] for a missing value; for a value it
    prints the decimal digits with a comma after every digit that has a
    positive multiple of three digits to its right, the minus sign of a
    negative value first; deleting the commas gives [toString] back. *)
Theorem formatBigint_groups_thousands (v : Z) :
  formatBigint None = "--"
  /\ formatBigint (Some v)
     = (if v <? 0 then "-" else "") +:+ group_thousands (toString (Z.abs v))
  /\ strip_commas (formatBigint (Some v)) = toString v.
Proof.
  split; [reflexivity|]. unfold formatBigint.
  destruct (Z.ltb_spec v 0) as [Hneg|Hpos].
  - rewrite (toString_neg v Hneg), Z.abs_neq by lia.
    destruct (toString_nonneg (- v) ltac:(lia)) as (d & ->).
    pose proof (digits_of_nat d) as Hd.
    cbn [replace_with_commas].
    rewrite (digit_groups_other "-" _ eq_refl), andb_false_r.
    rewrite (replace_after_other (Some "-"%char) _ eq_refl Hd).
    split; [reflexivity|].
    change (strip_commas (String "-" (group_thousands
                                        (NilZero.string_of_uint d)))
            = String "-" (NilZero.string_of_uint d)).
    cbn [strip_commas]. change (Ascii.eqb "-" ",") with false. cbn iota.
    now rewrite strip_grouped.
  - rewrite Z.abs_eq by lia.
    destruct (toString_nonneg v Hpos) as (d & ->).
    pose proof (digits_of_nat d) as Hd.
    rewrite (replace_after_other None _ eq_refl Hd).
    split; [reflexivity|now apply strip_grouped].
Qed.

Example formatBigint_millions : formatBigint (Some 1234567) = "1,234,567".
Proof. vm_compute. reflexivity. Qed.
Example formatBigint_negative : formatBigint (Some (-123456)) = "-123,456".
Proof. vm_compute. reflexivity. Qed.
